(** * metis: genome layout, genome builder, transmission, statistics and
      the cycle driver, embedded from the JavaScript sources.

    Conventions of the embedding.
    - A JavaScript number that the code uses as a count, an offset or a
      cycle is an exact integer ([nat] for lengths and offsets, [Z] for
      cycles); all of them stay far below 2^53.
    - A value that may be [undefined] is an [option]; property access on
      [undefined] throws a [TypeError], which is a [Throw] of the [Result]
      monad below.
    - A plain object used as a dictionary whose key order matters
      (genome metadata) is the list of its entries in [for ... in] order;
      objects used as tables are [gmap]s.
    - [Uint8Array] buffers live in a heap and are referenced by location,
      so that two names for one buffer are visible in the model.
    - [Math.random()] is an explicit argument: a rational in [0, 1). *)

From Stdlib Require Import ZArith QArith Qround Strings.Byte.
From stdpp Require Import base option numbers list gmap strings fin_maps.

Close Scope Q_scope.
Open Scope Z_scope.
Open Scope nat_scope.

(** ** Errors and the result monad *)

Inductive Error :=
  | TypeError (msg : string)
  | RangeError (msg : string).

Inductive Result (A : Type) :=
  | Ok (a : A)
  | Throw (e : Error).
Arguments Ok {A} a.
Arguments Throw {A} e.

#[global] Instance Result_ret : MRet Result := @Ok.
#[global] Instance Result_bind : MBind Result := λ A B f r,
  match r with
  | Ok a => f a
  | Throw e => Throw e
  end.

(** [o.prop] where [o] may be [undefined]. *)
Definition deref {A} (o : option A) : Result A :=
  match o with
  | Some a => Ok a
  | None => Throw (TypeError "Cannot read properties of undefined")
  end.

(** [arr[k]] for a (possibly negative) integer [k]. *)
Definition js_index {A} (arr : list A) (k : Z) : option A :=
  if (k <? 0)%Z then None else arr !! Z.to_nat k.

(** [obj[key]] on an object given by its entries. *)
Fixpoint obj_get {V} (obj : list (string * V)) (key : string) : option V :=
  match obj with
  | [] => None
  | (k, v) :: rest => if decide (k = key) then Some v else obj_get rest key
  end.

(** The keys visited by [for (let name in obj)]. *)
Definition obj_keys {V} (obj : list (string * V)) : list string := obj.*1.

(** A property key made from a value that may be [undefined]. *)
Definition ToPropertyKey (name : option string) : string :=
  default "undefined" name.

(** [for (let i = 0; i < n; i++) body(i)] started at index [i]. *)
Fixpoint for_loop {St} (n i : nat) (body : nat → St → Result St) (s : St) : Result St :=
  match n with
  | O => Ok s
  | S n' => s' ← body i s; for_loop n' (S i) body s'
  end.

(** [for (let x of xs) body(x)]. *)
Fixpoint for_of {A St} (xs : list A) (body : A → St → Result St) (s : St) : Result St :=
  match xs with
  | [] => Ok s
  | x :: rest => s' ← body x s; for_of rest body s'
  end.

(** ** Bytes of a [Uint8Array] *)

Definition byte_to_Z (b : byte) : Z := Z.of_N (Byte.to_N b).

(** The conversion applied by a store into a [Uint8Array]; [undefined]
    becomes [NaN] and then [0]. *)
Definition ToUint8 (v : option Z) : byte :=
  match v with
  | Some z => default "000"%byte (Byte.of_N (Z.to_N (z mod 256)))
  | None => "000"%byte
  end.

(** [buf[k]] and [buf[k] = v]; an index outside the buffer reads
    [undefined] and a store there is dropped. *)
Definition u8_get (buf : list byte) (k : nat) : option Z := byte_to_Z <$> buf !! k.
Definition u8_set (buf : list byte) (k : nat) (v : option Z) : list byte :=
  <[k := ToUint8 v]> buf.

(** ** genotype: markers *)

Inductive Marker :=
  | SNP (_possible_values : list Z)
  | MicroSatellite (_possible_values : list Z).

Definition possible_values (m : Marker) : list Z :=
  match m with
  | SNP pv => pv
  | MicroSatellite pv => pv
  end.

(** [new SNP()]: the default is bi-allelic. *)
Definition SNP_default : Marker := SNP [0%Z; 1%Z].

(** ** genotype: chromosomes and their behaviour layers *)

(** The mixins; a class is the base [gn_Chromosome] under a stack of them,
    outermost first. *)
Inductive Layer :=
  | Autosome
  | UnlinkedAutosome
  | LinkedAutosome
  | Mito
  | YChromosome
  | XChromosome.

Record Chromosome := {
  _markers : list Marker;
  _distances : option (list Q);
  layers : list Layer
}.

(** [this._size], assigned once by the constructor to [markers.length]. *)
Definition _size (c : Chromosome) : nat := length (_markers c).

(** The constructor shared by every class of the stack. *)
Definition gn_Chromosome (ls : list Layer) (markers : list Marker)
    (distances : option (list Q)) : Result Chromosome :=
  match distances with
  | Some d =>
      if decide (length markers ≠ length d + 1)
      then Throw (RangeError "If distances are defined, its length has to be markers.length-1")
      else Ok {| _markers := markers; _distances := distances; layers := ls |}
  | None => Ok {| _markers := markers; _distances := distances; layers := ls |}
  end.

Definition gn_ChromosomePair : list Marker → option (list Q) → Result Chromosome :=
  gn_Chromosome [Autosome].

(** The getters, resolved through the stack ([super] is the tail). *)
Fixpoint class_size (ls : list Layer) (c : Chromosome) : nat :=
  match ls with
  | [] => _size c
  | Autosome :: sup => 2 * class_size sup c
  | UnlinkedAutosome :: sup => 2 * class_size sup c
  | LinkedAutosome :: sup => 2 * class_size sup c
  | XChromosome :: sup => 2 * class_size sup c
  | Mito :: sup => class_size sup c
  | YChromosome :: sup => class_size sup c
  end.

Fixpoint class_markers (ls : list Layer) (c : Chromosome) : list Marker :=
  match ls with
  | [] => _markers c
  | Autosome :: sup =>
      let base_markers := class_markers sup c in base_markers ++ base_markers
  | _ :: sup => class_markers sup c
  end.

Fixpoint class_is_autosomal (ls : list Layer) : bool :=
  match ls with
  | [] => false
  | Autosome :: _ => true
  | _ :: sup => class_is_autosomal sup
  end.

Definition size (c : Chromosome) : nat := class_size (layers c) c.
Definition markers (c : Chromosome) : list Marker := class_markers (layers c) c.
Definition is_autosomal (c : Chromosome) : bool := class_is_autosomal (layers c).

(** ** genotype: the genome layout *)

(** [Genome_size] is the genome's [_size] field ([_size] names the
    chromosome's here). *)
Record Genome := {
  _metadata : list (string * Chromosome);
  _marker_order : list string;
  _marker_start : gmap string nat;
  Genome_size : nat
}.

Definition _compute_marker_positions (metadata : list (string * Chromosome))
    : Result (list string * gmap string nat * nat) :=
  for_of (obj_keys metadata)
    (λ name '(order, starts, start),
       c ← deref (obj_get metadata name);
       Ok (order ++ [name], <[name := start]> starts, start + size c))
    ([], ∅, 0).

Definition get_marker_start (g : Genome) (name : string) : option nat :=
  _marker_start g !! name.

Definition gn_Genome (metadata : list (string * Chromosome)) : Result Genome :=
  '(order, starts, _) ← _compute_marker_positions metadata;
  let last_marker_name := js_index order (Z.of_nat (length order) - 1) in
  c ← deref (obj_get metadata (ToPropertyKey last_marker_name));
  let last_marker_size := size c in
  Ok {| _metadata := metadata;
        _marker_order := order;
        _marker_start := starts;
        (* the start of the last name is always set by the loop above
           (lemma [last_marker_start_defined]); the default stands for
           the NaN of [undefined + n], which is never produced *)
        Genome_size := default 0 (last_marker_name ≫= (starts !!.))
                       + last_marker_size |}.

Definition gn_generate_unlinked_genome {G} (num_markers : nat)
    (marker_generator : G → Marker * G) (g : G) : Result Genome * G :=
  let '(markers, g') :=
    Nat.iter num_markers
      (λ '(ms, s), let '(m, s') := marker_generator s in (ms ++ [m], s'))
      ([], g) in
  (c ← gn_ChromosomePair markers None; gn_Genome [("unlinked"%string, c)], g').

(** ** species *)

Record Species := {
  name : string;
  _genome : Genome
}.

(** ** individual *)

(** The store of [Uint8Array] objects; an individual refers to its genome
    buffer by location. *)
Abbreviation Heap := (gmap nat (list byte)).

Record Individual := {
  _id : nat;
  species : Species;
  _alive : bool;
  cycle_born : Z;
  is_female : option bool;
  genome : option nat
}.

Definition set_genome (individual : Individual) (g : option nat) : Individual :=
  {| _id := _id individual; species := species individual;
     _alive := _alive individual; cycle_born := cycle_born individual;
     is_female := is_female individual; genome := g |}.

Definition set_is_female (individual : Individual) (f : bool) : Individual :=
  {| _id := _id individual; species := species individual;
     _alive := _alive individual; cycle_born := cycle_born individual;
     is_female := Some f; genome := genome individual |}.

(** [new Individual(species, cycle_born)]; the process-wide id counter is
    threaded. *)
Definition i_Individual (sp : Species) (born : Z) (global_id : nat) : Individual * nat :=
  ({| _id := global_id; species := sp; _alive := true; cycle_born := born;
      is_female := None; genome := None |}, S global_id).

Definition i_generate_basic_individual (sp : Species) (cyc : Z) (global_id : nat)
    : Individual * nat :=
  i_Individual sp cyc global_id.

(** [Math.random() >= .5] on the draw [random]. *)
Definition i_assign_random_sex (random : Q) (individual : Individual) : Individual :=
  set_is_female individual (if Qlt_le_dec random (1 # 2) then false else true).

(** ** population *)

Definition p_generate_n_inds {G} (num_inds : nat) (generator : G → Individual * G) (g : G)
    : list Individual * G :=
  Nat.iter num_inds
    (λ '(inds, s), let '(ind, s') := generator s in (inds ++ [ind], s'))
    ([], g).

(** The [pop] property that the assignment functions put on the
    individuals, as a store keyed by the unique [_id] of the individual
    objects; the value [None] is [NaN]. *)
Abbreviation Pops := (gmap nat (option Z)).

(** [i % num_pops] on non-negative integers: [NaN] for a zero divisor. *)
Definition js_rem (i num_pops : nat) : option Z :=
  if decide (num_pops = 0) then None else Some (Z.of_nat (i mod num_pops)).

(** [for (let ind of inds) ind.pop = Math.floor(Math.random() * num_pops)];
    the draws are [rnd k], [rnd (k + 1)], ... and the product is taken
    exactly. *)
Definition p_assign_random_population (rnd : nat → Q) (inds : list Individual)
    (num_pops : nat) (k : nat) (pops : Pops) : Pops * nat :=
  fold_left
    (λ '(pops, k) ind,
       (<[_id ind := Some (Qfloor (rnd k * inject_Z (Z.of_nat num_pops)))]> pops, S k))
    inds (pops, k).

(** [for (let i=0; i<inds.length; i++) inds[i].pop = i % num_pops]. *)
Definition p_assign_fixed_size_population (inds : list Individual) (num_pops : nat)
    (pops : Pops) : Result Pops :=
  for_loop (length inds) 0
    (λ i pops,
       ind ← deref (inds !! i);
       Ok (<[_id ind := js_rem i num_pops]> pops))
    pops.

(** ** utils *)

(** [choices[Math.floor(random * choices.length)]].  The product is taken
    exactly; the rounding of the product of doubles can move the index by
    one, and keeps it below [choices.length] all the same. *)
Definition utils_random_choice (random : Q) (choices : list Z) : option Z :=
  let pos := Qfloor (random * inject_Z (Z.of_nat (length choices))) in
  js_index choices pos.

(** ** integrated: genome builders *)

(** The inner loop [for (let i = 0; i < features.length; i++)] over the
    loci [features[i]], from index [i]. *)
Fixpoint fill_features {St} (func : list Z → St → option Z * St)
    (features : list Marker) (position i : nat) (genome_data : list byte) (s : St)
    : list byte * St :=
  match features with
  | [] => (genome_data, s)
  | feature :: rest =>
      let '(v, s') := func (possible_values feature) s in
      fill_features func rest position (S i) (u8_set genome_data (position + i) v) s'
  end.

Definition integrated_create_simple_genome {St} (σ : Heap) (individual : Individual)
    (func : list Z → St → option Z * St) (s : St) : Result (Heap * Individual * St) :=
  let species := species individual in
  let genome := _genome species in
  let metadata := _metadata genome in
  let genome_data := replicate (Genome_size genome) "000"%byte in
  '(genome_data, _, s') ←
    for_of (_marker_order genome)
      (λ marker_name '(genome_data, position, s),
         marker ← deref (obj_get metadata marker_name);
         let features := markers marker in
         let '(genome_data', s') :=
           fill_features func features position 0 genome_data s in
         Ok (genome_data', position + size marker, s'))
      (genome_data, 0, s);
  let l := fresh (dom σ) in
  Ok (<[l := genome_data]> σ, set_genome individual (Some l), s').

(** The three choosers; the random one consumes one draw of the oracle
    [rnd] per call, the test one advances [_integrated_test_val]. *)
Definition random_chooser (rnd : nat → Q) (possible_values : list Z) (k : nat)
    : option Z * nat :=
  (utils_random_choice (rnd k) possible_values, S k).

Definition zero_chooser (possible_values : list Z) (u : unit) : option Z * unit :=
  (Some 0%Z, u).

Definition test_chooser (possible_values : list Z) (_integrated_test_val : Z)
    : option Z * Z :=
  (Some _integrated_test_val, (_integrated_test_val + 1)%Z).

Definition integrated_create_randomized_genome (rnd : nat → Q) (σ : Heap)
    (individual : Individual) (k : nat) : Result (Heap * Individual * nat) :=
  integrated_create_simple_genome σ individual (random_chooser rnd) k.

Definition integrated_create_zero_genome (σ : Heap) (individual : Individual)
    : Result (Heap * Individual * unit) :=
  integrated_create_simple_genome σ individual zero_chooser ().

Definition integrated_create_test_genome (σ : Heap) (individual : Individual)
    (_integrated_test_val : Z) : Result (Heap * Individual * Z) :=
  integrated_create_simple_genome σ individual test_chooser _integrated_test_val.

Definition integrated_generate_individual_with_genome {St} (σ : Heap) (sp : Species)
    (cyc : Z) (genome_generator : Heap → Individual → St → Result (Heap * Individual * St))
    (global_id : nat) (s : St) : Result (Heap * Individual * St) * nat :=
  let '(ind, global_id') := i_generate_basic_individual sp cyc global_id in
  (genome_generator σ ind s, global_id').

(** ** genotype: transmission *)

(** [gn_Chromosome.reproduce]; [parent] is the argument as passed, which
    is [undefined] when the caller indexed past its [parents] array. *)
Definition gn_Chromosome_reproduce (c : Chromosome) (σ : Heap) (individual : Individual)
    (parent : option Individual) (ofs_position parent_position : nat) : Result Heap :=
  for_loop (_size c) 0
    (λ i σ,
       il ← deref (genome individual);
       ibuf ← deref (σ !! il);
       p ← deref parent;
       pl ← deref (genome p);
       pbuf ← deref (σ !! pl);
       Ok (<[il := u8_set ibuf (ofs_position + i) (u8_get pbuf (parent_position + i))]> σ))
    σ.

(** [gn_Autosome(Sup).reproduce] where [super.reproduce] is the base
    method, as in [gn_ChromosomePair]; [random] is the draw of
    [Math.random()].  The size of a class with the autosome layer is
    even, so [this.size / 2] is an exact division. *)
Definition gn_Autosome_reproduce (c : Chromosome) (σ : Heap) (individual : Individual)
    (parents : list Individual) (position : nat) (random : Q) : Result Heap :=
  let '(p1, p2) := if Qlt_le_dec random (1 # 2) then (1, 0) else (0, 1) in
  σ' ← gn_Chromosome_reproduce c σ individual (parents !! p1) position position;
  gn_Chromosome_reproduce c σ' individual (parents !! p2) (position + size c / 2) position.

(** ** operators *)

(** The values kept in [global_parameters].  A per-locus frequency table
    is a [gmap (option Z) nat]: its keys are the property keys made from
    the alleles read, a byte value or [None] for ["undefined"]. *)
Inductive Value :=
  | VUndefined
  | VBool (b : bool)
  | VNum (z : Z)
  | VCounts (counts : gmap string (list (gmap (option Z) nat))).

(** [v === false] and the truthiness tested by [!v], on a property read. *)
Definition is_false (v : option Value) : bool :=
  match v with
  | Some (VBool false) => true
  | _ => false
  end.

Definition truthy (v : option Value) : bool :=
  match v with
  | Some (VBool b) => b
  | Some (VNum z) => negb (z =? 0)%Z
  | Some (VCounts _) => true
  | Some VUndefined | None => false
  end.

Inductive Operator :=
  | BaseOperator
  | CycleStopOperator (_cycle : Z)
  | RxOperator
  | StatisticsOperator (_name : string)
      (compute : gmap string Value → Z → list Individual → Result Value).

Record State := {
  global_parameters : gmap string Value;
  individuals : list Individual;
  operators : list Operator;
  cycle : Z
}.

Definition set_global_parameters (state : State) (gp : gmap string Value) : State :=
  {| global_parameters := gp; individuals := individuals state;
     operators := operators state; cycle := cycle state |}.

Definition set_cycle (state : State) (c : Z) : State :=
  {| global_parameters := global_parameters state; individuals := individuals state;
     operators := operators state; cycle := c |}.

(** [operator.change(state)], by class.  [RxOperator] emits
    [global_parameters] to its subscribers and leaves the state alone. *)
Definition change (operator : Operator) (state : State) : Result State :=
  match operator with
  | BaseOperator => Throw (TypeError "This is an abstract method")
  | CycleStopOperator _cycle =>
      if decide (cycle state = _cycle)
      then Ok (set_global_parameters state
                 (<["stop" := VBool true]> (global_parameters state)))
      else Ok state
  | RxOperator => Ok state
  | StatisticsOperator _name compute =>
      v ← compute (global_parameters state) (cycle state) (individuals state);
      Ok (set_global_parameters state (<[_name := v]> (global_parameters state)))
  end.

(** [feature_counts[allele]] incremented, or created at 1. *)
Definition count_allele (allele : option Z) (feature_counts : gmap (option Z) nat)
    : gmap (option Z) nat :=
  match feature_counts !! allele with
  | Some n => <[allele := n + 1]> feature_counts
  | None => <[allele := 1]> feature_counts
  end.

(** The table of one locus: [for (let my_start of start)
    for (let individual of individuals)], reading [position + i]. *)
Definition feature_table (σ : Heap) (individuals : list Individual)
    (start : list nat) (position i : nat) : Result (gmap (option Z) nat) :=
  for_of start
    (λ my_start feature_counts,
       for_of individuals
         (λ individual feature_counts,
            l ← deref (genome individual);
            buf ← deref (σ !! l);
            let allele := u8_get buf (position + i) in
            Ok (count_allele allele feature_counts))
         feature_counts)
    ∅.

(** [num_features] and [start] for a chromosome: an autosomal one is
    scanned over half of its markers, with two entries in [start] (its
    markers are a list appended to itself, so the half is exact). *)
Definition scan_plan (marker : Chromosome) : nat * list nat :=
  let features := markers marker in
  if is_autosomal marker
  then (length features / 2, [0; length features / 2])
  else (length features, [0]).

(** [GenomeCountStatistics.compute] up to the call of [compute_counts]. *)
Definition GenomeCountStatistics_counts (σ : Heap) (individuals : list Individual)
    : Result (gmap string (list (gmap (option Z) nat))) :=
  first ← deref (individuals !! 0);
  let species := species first in
  let genome := _genome species in
  let metadata := _metadata genome in
  '(counts, _) ←
    for_of (_marker_order genome)
      (λ marker_name '(counts, position),
         marker ← deref (obj_get metadata marker_name);
         let '(num_features, start) := scan_plan marker in
         marker_counts ←
           for_loop num_features 0
             (λ i marker_counts,
                feature_counts ← feature_table σ individuals start position i;
                Ok (marker_counts ++ [feature_counts]))
             [];
         Ok (<[marker_name := marker_counts]> counts, position + size marker))
      (∅, 0);
  Ok counts.

(** [compute_counts] is left to subclasses and is not defined in the
    sources; it is a parameter of [compute]. *)
Definition ops_GenomeCountStatistics_compute
    (compute_counts : gmap string (list (gmap (option Z) nat)) → Result Value)
    (σ : Heap) (global_parameters : gmap string Value) (cycle : Z)
    (individuals : list Individual) : Result Value :=
  counts ← GenomeCountStatistics_counts σ individuals;
  compute_counts counts.

Definition ops_GenomeCountStatistics (name : string)
    (compute_counts : gmap string (list (gmap (option Z) nat)) → Result Value)
    (σ : Heap) : Operator :=
  StatisticsOperator name (ops_GenomeCountStatistics_compute compute_counts σ).

(** [SexStatistics.compute] of [operators/stats/demo]: the object
    [{females, males}] it returns.  An individual counts as female when its
    [is_female] is truthy, and as male otherwise. *)
Record SexCounts := { females : nat; males : nat }.

Definition SexStatistics_compute (global_parameters : gmap string Value) (cycle : Z)
    (individuals : list Individual) : SexCounts :=
  let '(males, females) :=
    fold_left
      (λ '(males, females) individual,
         match is_female individual with
         | Some true => (males, females + 1)
         | _ => (males + 1, females)
         end)
      individuals (0, 0) in
  {| females := females; males := males |}.

(** ** simulator *)

Definition sim_cycle (state : State) : Result State :=
  state' ← for_of (operators state) change state;
  Ok (set_cycle state' (cycle state' + 1)%Z).

(** The loop [while (state.global_parameters.stop === false) cycle(state)];
    [None] when [fuel] iterations did not reach the exit. *)
Fixpoint while_not_stopped (fuel : nat) (state : State) : option (Result State) :=
  if is_false (global_parameters state !! "stop") then
    match fuel with
    | O => None
    | S fuel' =>
        match sim_cycle state with
        | Ok state' => while_not_stopped fuel' state'
        | Throw e => Some (Throw e)
        end
    end
  else Some (Ok state).

Definition sim_do_unspecified_cycles (fuel : nat) (individuals : list Individual)
    (operators : list Operator) (previous_cycle : Z) : option (Result State) :=
  let state := {| global_parameters := {["stop" := VBool false]};
                  individuals := individuals;
                  operators := operators; cycle := previous_cycle |} in
  while_not_stopped fuel state.

(** The arguments bound by [do_async_cycles.bind(null, ...)]; the bound
    callback is the one of the current invocation. *)
Record Resume := {
  r_individuals : list Individual;
  r_operators : list Operator;
  r_previous_cycle : Z;
  r_global_parameters : gmap string Value
}.

Definition sim_do_async_cycles {A} (individuals : list Individual)
    (operators : list Operator) (previous_cycle : Z)
    (global_parameters : gmap string Value)
    (callback : State → option Resume → A) : Result A :=
  let state := {| global_parameters := {["stop" := VBool false]};
                  individuals := individuals;
                  operators := operators; cycle := previous_cycle |} in
  state ← sim_cycle state;
  let '{| global_parameters := state_global_parameters;
          individuals := state_individuals;
          operators := state_operators |} := state in
  let return_callback :=
    if negb (truthy (state_global_parameters !! "stop"))
    then Some {| r_individuals := state_individuals;
                 r_operators := state_operators;
                 r_previous_cycle := (previous_cycle + 1)%Z;
                 r_global_parameters := state_global_parameters |}
    else None in
  Ok (callback state return_callback).

(** Calling a [return_callback]. *)
Definition resume {A} (r : Resume) (callback : State → option Resume → A) : Result A :=
  sim_do_async_cycles (r_individuals r) (r_operators r) (r_previous_cycle r)
    (r_global_parameters r) callback.

(** [do_n_cycles]: with a callback the result is handed to it and nothing
    is returned ([inr]); without one the final state is returned ([inl]). *)
Definition sim_do_n_cycles {A} (fuel : nat) (n : Z) (individuals : list Individual)
    (operators : list Operator) (previous_cycle : Z)
    (callback : option (State → option Resume → A)) : option (Result (State + A)) :=
  let add_operators := operators ++ [CycleStopOperator (n + previous_cycle)] in
  match callback with
  | Some cb =>
      Some (a ← sim_do_async_cycles individuals add_operators previous_cycle ∅ cb;
            Ok (inr a))
  | None =>
      r ← sim_do_unspecified_cycles fuel individuals add_operators previous_cycle;
      Some (state ← r; Ok (inl state))
  end.

(** A caller of the async driver that invokes every [return_callback] it
    is handed, until none is handed; it yields the last state delivered. *)
Fixpoint async_run (fuel : nat) (r : Resume) : option (Result State) :=
  match fuel with
  | O => None
  | S fuel' =>
      match resume r (λ state return_callback, (state, return_callback)) with
      | Ok (state, Some r') => async_run fuel' r'
      | Ok (state, None) => Some (Ok state)
      | Throw e => Some (Throw e)
      end
  end.

(** ** Notions used to state the properties *)

(** [distances] is absent, or has one entry less than [markers]. *)
Definition distances_fit (markers : list Marker) (distances : option (list Q)) : Prop :=
  match distances with
  | None => True
  | Some d => Z.of_nat (length d) = (Z.of_nat (length markers) - 1)%Z
  end.

(** The sum of the sizes of the chromosomes of some entries. *)
Definition total_size (entries : list (string * Chromosome)) : nat :=
  sum_list_with (λ e, size e.2) entries.

(** [k] successive cycle steps. *)
Fixpoint cycles (k : nat) (state : State) : Result State :=
  match k with
  | O => Ok state
  | S k' => state' ← sim_cycle state; cycles k' state'
  end.

(** [l[from .. from + n)]. *)
Definition slice {A} (l : list A) (from n : nat) : list A := take n (drop from l).

(** [dst] after the stores [dst[dp + j] = src[sp + j]] for
    [i <= j < i + n], every value read from an unchanging [src]. *)
Fixpoint copied (n i : nat) (src dst : list byte) (sp dp : nat) : list byte :=
  match n with
  | O => dst
  | S n' => copied n' (S i) src (u8_set dst (dp + i) (u8_get src (sp + i))) sp dp
  end.

(** A statistic that counts the cycles it has seen, from the value it
    stored the cycle before. *)
Definition seen_cycles : Operator :=
  StatisticsOperator "seen"
    (λ global_parameters _ _,
       Ok (VNum (match global_parameters !! "seen" with
                 | Some (VNum z) => z + 1
                 | _ => 1
                 end)%Z)).

(** A species without chromosomes to speak of, for populations whose
    genomes play no role. *)
Definition empty_species : Species :=
  {| name := "empty";
     _genome := {| _metadata := []; _marker_order := [];
                   _marker_start := ∅; Genome_size := 0 |} |}.

Definition generate_n_basic_individuals (n : nat) : list Individual :=
  (p_generate_n_inds n (i_generate_basic_individual empty_species 0) 0).1.

(** Small inputs for the examples: a plain chromosome of two SNPs, the
    same pair as a [ChromosomePair], and an individual whose genome is the
    buffer at a given location. *)
Definition two_loci : Chromosome :=
  {| _markers := [SNP_default; SNP_default]; _distances := None; layers := [] |}.

Definition two_loci_pair : Chromosome :=
  {| _markers := [SNP_default; SNP_default]; _distances := None; layers := [Autosome] |}.

Definition individual_at (l : nat) : Individual :=
  set_genome (i_generate_basic_individual empty_species 0 l).1 (Some l).

(** A value that a [Uint8Array] holds as it is. *)
Definition uint8 (v : Z) : Prop := (0 ≤ v < 256)%Z.

(** A chooser that answers with one of the values it is offered. *)
Definition picks_offered {St} (func : list Z → St → option Z * St) : Prop :=
  ∀ pv s, pv ≠ [] → ∃ v, (func pv s).1 = Some v ∧ v ∈ pv.

(** The loci of a chromosome are usable by the random chooser: each
    offers at least one value, and only bytes. *)
Definition loci_offer_bytes (c : Chromosome) : Prop :=
  ∀ m, m ∈ markers c → possible_values m ≠ [] ∧ Forall uint8 (possible_values m).

(** A new individual of a species with the given genome. *)
Definition individual_of (g : Genome) : Individual :=
  (i_generate_basic_individual {| name := "species"; _genome := g |} 0 0).1.

(** One locus with alleles 1 and 2 under the X layer, which doubles the
    size and leaves [markers] alone. *)
Definition x_linked_metadata : list (string * Chromosome) :=
  [("x"%string,
    {| _markers := [SNP [1%Z; 2%Z]]; _distances := None; layers := [XChromosome] |})].

(** The table in which one allele has been counted [m] times. *)
Definition counted (allele : option Z) (m : nat) : gmap (option Z) nat :=
  if decide (m = 0) then ∅ else {[allele := m]}.

(** The sum of the counts of a table. *)
Definition table_total (table : gmap (option Z) nat) : nat :=
  map_fold (λ _ n acc, n + acc) 0 table.

(** Everyone in the population has a genome buffer with the bytes [buf]. *)
Definition identical_genomes (σ : gmap nat (list byte)) (buf : list byte)
    (individuals : list Individual) : Prop :=
  Forall (λ individual, ∃ l, genome individual = Some l ∧ σ !! l = Some buf) individuals.

(** The tables of a chromosome that starts at [position] when every one
    of [n] genomes is [buf]: each locus scanned has one allele, counted
    once per entry of [start] and per individual. *)
Definition identical_tables (buf : list byte) (n : nat) (marker : Chromosome)
    (position : nat) : list (gmap (option Z) nat) :=
  (λ i, counted (u8_get buf (position + i)) (length (scan_plan marker).2 * n))
    <$> seq 0 (scan_plan marker).1.

(** A chromosome pair with a single SNP. *)
Definition one_locus_pair : Chromosome :=
  {| _markers := [SNP_default]; _distances := None; layers := [Autosome] |}.

(** ** Notions used to state further properties *)

(** The layers whose [size] getter doubles the size below them, and the
    number of layers of a stack that satisfy a test. *)
Definition doubles_size (l : Layer) : bool :=
  match l with
  | Mito | YChromosome => false
  | _ => true
  end.

Definition is_Autosome (l : Layer) : bool :=
  match l with
  | Autosome => true
  | _ => false
  end.

Definition count_layers (test : Layer → bool) (ls : list Layer) : nat :=
  sum_list_with (λ l, if test l then 1 else 0) ls.

(** The bytes of an individual's genome buffer, if it has one, and the
    allele [individual.genome[p]] read from it. *)
Definition genome_bytes (σ : gmap nat (list byte)) (individual : Individual)
    : option (list byte) :=
  genome individual ≫= (σ !!.).

Definition allele_at (σ : gmap nat (list byte)) (p : nat) (individual : Individual)
    : option Z :=
  genome_bytes σ individual ≫= λ buf, u8_get buf p.

(** How many entries of a list of alleles are the allele [a]. *)
Definition occurrences (a : option Z) (alleles : list (option Z)) : nat :=
  length (filter (λ x, x = a) alleles).

(** A table that counts, for the alleles the population carries at
    position [p], each allele [passes] times per carrier, and has no other
    key. *)
Definition tallies (σ : gmap nat (list byte)) (individuals : list Individual)
    (passes p : nat) (table : gmap (option Z) nat) : Prop :=
  (∀ a n, table !! a = Some n → 0 < n) ∧
  (∀ a, default 0 (table !! a)
        = passes * occurrences a (allele_at σ p <$> individuals)).

(** An operator that keeps nothing in [global_parameters] but the stop
    flag: the stop operator and the Rx operator. *)
Definition memoryless (operator : Operator) : Prop :=
  match operator with
  | CycleStopOperator _ | RxOperator => True
  | _ => False
  end.

(** An operator that never throws and never writes the stop flag: the Rx
    operator, and a statistic with another name whose [compute] always
    returns. *)
Definition quiet (operator : Operator) : Prop :=
  match operator with
  | RxOperator => True
  | StatisticsOperator _name compute =>
      _name ≠ "stop"%string ∧ ∀ gp c inds, ∃ v, compute gp c inds = Ok v
  | _ => False
  end.

(** An operator that cannot end a run started at cycle [from]: a quiet
    one, or a stop operator whose target lies before [from]. *)
Definition never_stops (from : Z) (operator : Operator) : Prop :=
  quiet operator ∨ ∃ target, operator = CycleStopOperator target ∧ (target < from)%Z.

(** * Properties *)

(** ** The embedding on small inputs *)

Example unlinked_genome_of_20_snps :
  ∃ g, (gn_generate_unlinked_genome 20 (λ u : unit, (SNP_default, u)) ()).1 = Ok g ∧
       Genome_size g = 40 ∧ _marker_order g = ["unlinked"%string] ∧
       get_marker_start g "unlinked"%string = Some 0.
Proof. eexists. split; [vm_compute; reflexivity|]. by vm_compute. Qed.

Example zero_genome_of_a_pair :
  ∃ g σ individual,
    gn_Genome [("unlinked"%string, two_loci_pair)] = Ok g ∧
    integrated_create_zero_genome ∅ (individual_of g) = Ok (σ, individual, ()) ∧
    genome individual = Some 0 ∧ σ !! 0 = Some [x00; x00; x00; x00].
Proof. eexists _, _, _. split; [vm_compute; reflexivity|]. by vm_compute. Qed.

Example test_genome_of_a_pair :
  ∃ g σ individual,
    gn_Genome [("unlinked"%string, two_loci_pair)] = Ok g ∧
    integrated_create_test_genome ∅ (individual_of g) 254 = Ok (σ, individual, 258%Z) ∧
    σ !! 0 = Some [xfe; xff; x00; x01].
Proof. eexists _, _, _. split; [vm_compute; reflexivity|]. by vm_compute. Qed.

Example one_cycle_without_operators :
  sim_cycle {| global_parameters := ∅; individuals := generate_n_basic_individuals 10;
               operators := []; cycle := 0 |}
  = Ok {| global_parameters := ∅; individuals := generate_n_basic_individuals 10;
          operators := []; cycle := 1 |}.
Proof. reflexivity. Qed.

Example abstract_operator_throws :
  ∃ msg, sim_cycle {| global_parameters := ∅; individuals := [];
                      operators := [RxOperator; BaseOperator]; cycle := 0 |}
         = Throw (TypeError msg).
Proof. by eexists. Qed.

(** ** The result monad and the loops *)

Lemma bind_Ok {A B} (f : A → Result B) (r : Result A) (b : B) :
  r ≫= f = Ok b → ∃ a, r = Ok a ∧ f a = Ok b.
Proof. destruct r as [a|e]; simpl; [eauto | discriminate]. Qed.


(** ** Chromosome construction *)

(** C7. With [distances] absent or of length [markers.length - 1] the
    construction of a chromosome succeeds and its size is
    [markers.length]; with any other [distances] it fails with a
    [RangeError]. *)
Theorem chromosome_construction (markers : list Marker) (distances : option (list Q)) :
  (distances_fit markers distances →
     ∃ c, gn_Chromosome [] markers distances = Ok c ∧
          size c = length markers ∧ _markers c = markers ∧ _distances c = distances)
  ∧ (¬ distances_fit markers distances →
     ∃ msg, gn_Chromosome [] markers distances = Throw (RangeError msg)).
Proof.
  unfold gn_Chromosome, distances_fit.
  destruct distances as [d|]; [|split; [eauto|tauto]].
  case_decide as Hlen; split; intros H; try lia; eauto.
Qed.

(** The same check guards every composed class; only the size getter
    differs. *)
Lemma composed_construction (ls : list Layer) (markers : list Marker)
    (distances : option (list Q)) :
  distances_fit markers distances →
  ∃ c, gn_Chromosome ls markers distances = Ok c ∧
       _size c = length markers ∧ layers c = ls.
Proof.
  unfold gn_Chromosome, distances_fit.
  destruct distances as [d|]; [|eauto].
  case_decide as Hlen; intros H; try lia; eauto.
Qed.

(** ** Objects and the genome layout *)

Lemma obj_get_key {V} (obj : list (string * V)) (key : string) :
  key ∈ obj_keys obj → is_Some (obj_get obj key).
Proof.
  unfold obj_keys. induction obj as [|[k v] obj IH]; simpl.
  - intros H. by apply elem_of_nil in H.
  - intros H. case_decide; [eauto|].
    apply elem_of_cons in H as [->|H]; [done | by apply IH].
Qed.

Lemma obj_get_entry {V} (obj : list (string * V)) (key : string) (v : V) :
  NoDup (obj_keys obj) → (key, v) ∈ obj → obj_get obj key = Some v.
Proof.
  unfold obj_keys. induction obj as [|[k w] obj IH]; simpl; intros Hnd Hin.
  - by apply elem_of_nil in Hin.
  - apply NoDup_cons in Hnd as [Hk Hnd].
    apply elem_of_cons in Hin as [[= -> ->]|Hin]; [by rewrite decide_True|].
    rewrite decide_False; [by apply IH|].
    intros ->. apply Hk. apply list_elem_of_fmap. by exists (key, v).
Qed.

Lemma obj_get_Some {V} (obj : list (string * V)) (key : string) (v : V) :
  obj_get obj key = Some v → (key, v) ∈ obj.
Proof.
  induction obj as [|[k w] obj IH]; simpl; [done|].
  case_decide as Hk.
  - intros [= ->]. subst. apply elem_of_cons. by left.
  - intros H. apply elem_of_cons. right. by apply IH.
Qed.

Lemma js_index_last {A} (xs : list A) (x : A) :
  js_index (xs ++ [x]) (Z.of_nat (length (xs ++ [x])) - 1) = Some x.
Proof.
  unfold js_index. rewrite length_app. simpl.
  destruct (Z.ltb_spec (Z.of_nat (length xs + 1) - 1) 0) as [H|H]; [lia|].
  replace (Z.to_nat (Z.of_nat (length xs + 1) - 1)) with (length xs) by lia.
  by rewrite list_lookup_middle.
Qed.

Lemma total_size_app (xs ys : list (string * Chromosome)) :
  total_size (xs ++ ys) = total_size xs + total_size ys.
Proof. unfold total_size. apply sum_list_with_app. Qed.

Section layout.
Context (metadata : list (string * Chromosome)).

(** The body of the loop of [_compute_marker_positions]. *)
Let body : string → list string * gmap string nat * nat
           → Result (list string * gmap string nat * nat) :=
  λ name '(order, starts, start),
    c ← deref (obj_get metadata name);
    Ok (order ++ [name], <[name := start]> starts, start + size c).

(** The loop never throws on the keys of the object, and records them
    in order. *)
Lemma positions_loop_order (names : list string) order starts start :
  (∀ n, n ∈ names → n ∈ obj_keys metadata) →
  ∃ starts' total,
    for_of names body (order, starts, start) = Ok (order ++ names, starts', total) ∧
    (∀ n, n ∈ names → is_Some (starts' !! n)).
Proof.
  revert order starts start.
  induction names as [|n names IH]; intros order starts start Hkeys; simpl.
  - rewrite app_nil_r. exists starts, start. split; [done|].
    intros n H. by apply elem_of_nil in H.
  - destruct (obj_get_key metadata n) as [c Hc]; [apply Hkeys; left|].
    rewrite Hc. simpl.
    destruct (IH (order ++ [n]) (<[n := start]> starts) (start + size c))
      as (starts' & total & Hrun & Hdef).
    { intros m Hm. apply Hkeys. by right. }
    exists starts', total. rewrite Hrun, <- app_assoc. split; [done|].
    intros m Hm. destruct (decide (m ∈ names)) as [Hin|Hnin]; [by apply Hdef|].
    apply elem_of_cons in Hm as [->|Hm]; [|done].
    clear -Hrun Hnin.
    assert (Hkeep : ∀ (ns : list string) o s t o' s' t',
               for_of ns body (o, s, t) = Ok (o', s', t') →
               ∀ k, is_Some (s !! k) → is_Some (s' !! k)).
    { induction ns as [|x ns IHns]; simpl; intros o s t o' s' t' Hr k Hk.
      - by injection Hr as <- <- <-.
      - destruct (obj_get metadata x) as [cx|]; simpl in Hr; [|done].
        eapply IHns; [exact Hr|].
        destruct (decide (x = k)) as [->|Hne];
          [rewrite lookup_insert_eq | rewrite lookup_insert_ne]; eauto. }
    eapply Hkeep; [exact Hrun|]. rewrite lookup_insert_eq. eauto.
Qed.

(** With distinct keys, every name starts where the sizes before it
    end. *)
Lemma positions_loop_starts (entries : list (string * Chromosome)) order starts start :
  NoDup (obj_keys metadata) →
  (∀ e, e ∈ entries → e ∈ metadata) →
  NoDup (obj_keys entries) →
  ∃ starts',
    for_of (obj_keys entries) body (order, starts, start)
    = Ok (order ++ obj_keys entries, starts', start + total_size entries) ∧
    (∀ k n c, entries !! k = Some (n, c) →
              starts' !! n = Some (start + total_size (take k entries))) ∧
    (∀ n, n ∉ obj_keys entries → starts' !! n = starts !! n).
Proof.
  intros Hnd. revert order starts start.
  induction entries as [|[n c] entries IH]; intros order starts start Hsub Hnd'; simpl.
  - exists starts. rewrite app_nil_r, Nat.add_0_r. split_and!; [done| |done].
    intros k m d H. by rewrite lookup_nil in H.
  - unfold obj_keys in Hnd'. simpl in Hnd'. apply NoDup_cons in Hnd' as [Hn Hnd'].
    rewrite (obj_get_entry metadata n c Hnd); [|apply Hsub; left]. simpl.
    destruct (IH (order ++ [n]) (<[n := start]> starts) (start + size c))
      as (starts' & Hrun & Hat & Hother); [|done|].
    { intros e He. apply Hsub. by right. }
    exists starts'. rewrite Hrun, <- app_assoc. simpl.
    unfold total_size at 2. simpl. fold (total_size entries).
    split_and!.
    + f_equal. f_equal. lia.
    + intros [|k] m d Hk; simpl in Hk.
      * injection Hk as -> ->. rewrite Hother; [|done].
        rewrite lookup_insert_eq. simpl. unfold total_size. simpl. f_equal. lia.
      * rewrite (Hat k m d Hk). f_equal. simpl.
        unfold total_size at 2. simpl. fold (total_size (take k entries)). lia.
    + intros m Hm. apply not_elem_of_cons in Hm as [Hne Hm].
      rewrite Hother; [|done]. by rewrite lookup_insert_ne.
Qed.
End layout.

Lemma obj_keys_snoc {V} (obj : list (string * V)) (k : string) (v : V) :
  obj_keys (obj ++ [(k, v)]) = obj_keys obj ++ [k].
Proof. unfold obj_keys. by rewrite fmap_app. Qed.

Lemma nonempty_snoc {A} (xs : list A) :
  xs ≠ [] → ∃ ys y, xs = ys ++ [y].
Proof.
  induction xs as [|x xs _] using rev_ind; [done|]. intros _. eauto.
Qed.

(** Non-empty metadata always yields a genome, in the object's key
    order. *)
Lemma genome_built (metadata : list (string * Chromosome)) :
  metadata ≠ [] →
  ∃ g, gn_Genome metadata = Ok g ∧ _metadata g = metadata ∧
       _marker_order g = obj_keys metadata.
Proof.
  intros Hne.
  destruct (nonempty_snoc metadata Hne) as (pre & [n c] & Hsnoc).
  unfold gn_Genome, _compute_marker_positions.
  destruct (positions_loop_order metadata (obj_keys metadata) [] ∅ 0)
    as (starts & total & Hrun & _); [done|].
  rewrite Hrun. simpl.
  assert (Hlast : js_index (obj_keys metadata) (Z.of_nat (length (obj_keys metadata)) - 1)
                  = Some n).
  { rewrite Hsnoc, obj_keys_snoc. apply js_index_last. }
  rewrite Hlast. simpl.
  destruct (obj_get_key metadata n) as [c' Hc'].
  { rewrite Hsnoc, obj_keys_snoc. apply elem_of_app. right. by left. }
  rewrite Hc'. simpl. eauto.
Qed.

(** The start of the last marker name is set whenever a genome is built:
    the default in [gn_Genome] is never used. *)
Lemma last_marker_start_defined (metadata : list (string * Chromosome)) (g : Genome) :
  gn_Genome metadata = Ok g →
  ∃ n s, last (_marker_order g) = Some n ∧ get_marker_start g n = Some s.
Proof.
  intros Hg.
  assert (Hne : metadata ≠ []) by (intros ->; discriminate Hg).
  destruct (nonempty_snoc metadata Hne) as (pre & [n c] & Hsnoc).
  unfold gn_Genome, _compute_marker_positions in Hg.
  destruct (positions_loop_order metadata (obj_keys metadata) [] ∅ 0)
    as (starts & total & Hrun & Hdef); [done|].
  rewrite Hrun in Hg. simpl in Hg.
  assert (Hkey : n ∈ obj_keys metadata).
  { rewrite Hsnoc, obj_keys_snoc. apply elem_of_app. right. by left. }
  destruct (obj_get metadata (ToPropertyKey _)) as [c'|]; [|done].
  injection Hg as <-. destruct (Hdef n Hkey) as [s Hs].
  exists n, s. split; [|done]. simpl. rewrite Hsnoc, obj_keys_snoc. apply last_snoc.
Qed.

(** C8. Constructing a genome from empty metadata throws (the last marker
    name is [undefined] and has no chromosome to take a size from), and no
    genome is produced; from any non-empty metadata it succeeds. *)
Theorem genome_construction (metadata : list (string * Chromosome)) :
  match metadata with
  | [] => ∃ msg, gn_Genome metadata = Throw (TypeError msg)
  | _ :: _ => ∃ g, gn_Genome metadata = Ok g ∧ _metadata g = metadata ∧
                   _marker_order g = obj_keys metadata
  end.
Proof.
  destruct metadata as [|e rest]; [by eexists | by apply genome_built].
Qed.

(** The layout computed by the constructor: every name starts at the sum
    of the sizes before it. *)
Lemma genome_starts (metadata : list (string * Chromosome)) :
  metadata ≠ [] → NoDup (obj_keys metadata) →
  ∃ g, gn_Genome metadata = Ok g ∧
       _metadata g = metadata ∧
       _marker_order g = obj_keys metadata ∧
       Genome_size g = total_size metadata ∧
       (∀ k n c, metadata !! k = Some (n, c) →
                 get_marker_start g n = Some (total_size (take k metadata))) ∧
       (∀ n, n ∉ obj_keys metadata → get_marker_start g n = None).
Proof.
  intros Hne Hnd.
  destruct (nonempty_snoc metadata Hne) as (pre & [n c] & Hsnoc).
  unfold gn_Genome, _compute_marker_positions.
  destruct (positions_loop_starts metadata metadata [] ∅ 0 Hnd)
    as (starts & Hrun & Hat & Hother); [done..|].
  rewrite Hrun. simpl.
  assert (Hlast : js_index (obj_keys metadata) (Z.of_nat (length (obj_keys metadata)) - 1)
                  = Some n).
  { rewrite Hsnoc, obj_keys_snoc. apply js_index_last. }
  rewrite Hlast. simpl.
  assert (Hin : metadata !! length pre = Some (n, c)).
  { rewrite Hsnoc. apply list_lookup_middle. done. }
  rewrite (obj_get_entry metadata n c Hnd); [|by eapply list_elem_of_lookup_2].
  simpl. eexists. split; [done|]. simpl. split_and!; try done.
  rewrite (Hat _ _ _ Hin). simpl.
  rewrite Hsnoc at 2. rewrite total_size_app.
  rewrite Hsnoc, take_app_length. unfold total_size at 3. simpl. lia.
Qed.

Lemma total_size_take_S (entries : list (string * Chromosome)) k n c :
  entries !! k = Some (n, c) →
  total_size (take (S k) entries) = total_size (take k entries) + size c.
Proof.
  intros Hk. rewrite (take_S_r _ _ _ Hk), total_size_app.
  unfold total_size. simpl. lia.
Qed.

Lemma total_size_take_mono (entries : list (string * Chromosome)) i j :
  i ≤ j → total_size (take i entries) ≤ total_size (take j entries).
Proof.
  revert i j. induction entries as [|e entries IH]; intros i j Hij.
  - by rewrite !take_nil.
  - destruct i as [|i], j as [|j]; simpl; try lia.
    unfold total_size. simpl. apply Nat.add_le_mono_l. apply IH. lia.
Qed.

Lemma total_size_take_le (entries : list (string * Chromosome)) k :
  total_size (take k entries) ≤ total_size entries.
Proof.
  rewrite <- (take_drop k entries) at 2. rewrite total_size_app. lia.
Qed.

(** Two entries in order: the first one's range ends before the second
    one's starts. *)
Lemma ranges_in_order (entries : list (string * Chromosome)) i j n c :
  i < j → entries !! i = Some (n, c) →
  total_size (take i entries) + size c ≤ total_size (take j entries).
Proof.
  intros Hij Hi. rewrite <- (total_size_take_S _ _ _ _ Hi).
  apply total_size_take_mono. lia.
Qed.

(** C4. For a genome built from non-empty metadata (an object: its keys
    are distinct): the size is the sum of the chromosomes' sizes; the
    start offsets increase along [marker_order], each range ending where
    or before the next one starts; every range ends within the genome; the
    ranges of two chromosomes do not overlap; and the size is the start of
    the last entry plus its size. *)
Theorem genome_layout_invariants (metadata : list (string * Chromosome)) :
  metadata ≠ [] → NoDup (obj_keys metadata) →
  ∃ g, gn_Genome metadata = Ok g ∧
    Genome_size g = total_size metadata ∧
    (∀ i j ni nj ci, i < j →
       _marker_order g !! i = Some ni → _marker_order g !! j = Some nj →
       obj_get metadata ni = Some ci →
       ∃ si sj, get_marker_start g ni = Some si ∧ get_marker_start g nj = Some sj ∧
                si ≤ sj ∧ si + size ci ≤ sj) ∧
    (∀ n c, obj_get metadata n = Some c →
       ∃ s, get_marker_start g n = Some s ∧ s + size c ≤ Genome_size g) ∧
    (∀ n1 c1 s1 n2 c2 s2, n1 ≠ n2 →
       obj_get metadata n1 = Some c1 → obj_get metadata n2 = Some c2 →
       get_marker_start g n1 = Some s1 → get_marker_start g n2 = Some s2 →
       s1 + size c1 ≤ s2 ∨ s2 + size c2 ≤ s1) ∧
    (∃ n c s, last metadata = Some (n, c) ∧ get_marker_start g n = Some s ∧
              Genome_size g = s + size c).
Proof.
  intros Hne Hnd.
  destruct (genome_starts metadata Hne Hnd)
    as (g & Hg & _ & Horder & Hsize & Hstart & _).
  exists g. split; [done|]. split; [done|].
  assert (Hfind : ∀ n c, obj_get metadata n = Some c →
                         ∃ k, metadata !! k = Some (n, c)).
  { intros n c H. apply list_elem_of_lookup_1. by apply obj_get_Some. }
  split_and!.
  - intros i j ni nj ci Hij Hi Hj Hci.
    rewrite Horder in Hi, Hj. unfold obj_keys in Hi, Hj.
    rewrite list_lookup_fmap in Hi, Hj.
    destruct (metadata !! i) as [[ni' ci']|] eqn:Ei; simplify_eq/=.
    destruct (metadata !! j) as [[nj' cj']|] eqn:Ej; simplify_eq/=.
    assert (ci' = ci) as ->.
    { apply list_elem_of_lookup_2 in Ei.
      rewrite (obj_get_entry _ _ _ Hnd Ei) in Hci. by injection Hci. }
    exists (total_size (take i metadata)), (total_size (take j metadata)).
    rewrite (Hstart _ _ _ Ei), (Hstart _ _ _ Ej).
    pose proof (ranges_in_order metadata i j _ _ Hij Ei). split_and!; [done..|lia|done].
  - intros n c Hc. destruct (Hfind n c Hc) as [k Hk].
    exists (total_size (take k metadata)). split; [by eapply Hstart|].
    rewrite Hsize, <- (total_size_take_S _ _ _ _ Hk). apply total_size_take_le.
  - intros n1 c1 s1 n2 c2 s2 Hne12 Hc1 Hc2 Hs1 Hs2.
    destruct (Hfind n1 c1 Hc1) as [k1 Hk1], (Hfind n2 c2 Hc2) as [k2 Hk2].
    rewrite (Hstart _ _ _ Hk1) in Hs1. rewrite (Hstart _ _ _ Hk2) in Hs2.
    injection Hs1 as <-. injection Hs2 as <-.
    destruct (Nat.lt_trichotomy k1 k2) as [Hlt|[Heq|Hgt]].
    + left. by eapply ranges_in_order.
    + subst k2. rewrite Hk1 in Hk2. by injection Hk2.
    + right. by eapply ranges_in_order.
  - destruct (nonempty_snoc metadata Hne) as (pre & [n c] & Hsnoc).
    assert (Hin : metadata !! length pre = Some (n, c)).
    { rewrite Hsnoc. by apply list_lookup_middle. }
    exists n, c, (total_size (take (length pre) metadata)). split_and!.
    + rewrite Hsnoc. apply last_snoc.
    + by eapply Hstart.
    + rewrite Hsize, <- (total_size_take_S _ _ _ _ Hin).
      rewrite Hsnoc, take_ge; [done|]. rewrite length_app. simpl. lia.
Qed.

(** A genome of a plain chromosome followed by a chromosome pair. *)
Lemma genome_layout_invariants_example :
  ∃ g, gn_Genome [("chr"%string, two_loci); ("unlinked"%string, two_loci_pair)] = Ok g ∧
       Genome_size g = 6 ∧
       get_marker_start g "unlinked"%string = Some 2.
Proof.
  destruct (genome_layout_invariants
              [("chr"%string, two_loci); ("unlinked"%string, two_loci_pair)])
    as (g & Hg & Hsize & _ & _ & _ & (n & c & s & Hlast & Hs & Hsum));
    [done | compute_done |].
  exists g. split; [exact Hg|]. split; [exact Hsize|].
  injection Hlast as <- <-. rewrite Hs. f_equal.
  rewrite Hsize in Hsum.
  change (total_size [("chr"%string, two_loci); ("unlinked"%string, two_loci_pair)])
    with 6 in Hsum.
  change (size two_loci_pair) with 4 in Hsum. lia.
Defined.

(** ** The cycle driver *)

Section stop_at_target.
Context (target : Z) (inds : list Individual).

(** The state of a run whose only operator is the stop operator. *)
Let run_state (gp : gmap string Value) (c : Z) : State :=
  {| global_parameters := gp; individuals := inds;
     operators := [CycleStopOperator target]; cycle := c |}.

Lemma stop_step (gp : gmap string Value) (c : Z) :
  sim_cycle (run_state gp c)
  = Ok (run_state (if decide (c = target) then <["stop" := VBool true]> gp else gp)
                  (c + 1)).
Proof.
  unfold sim_cycle, run_state. simpl. by case_decide.
Qed.

(** After [k] steps from cycle [c], stop has been set exactly when the
    step at cycle [target] was among them. *)
Lemma stop_run (k : nat) (gp : gmap string Value) (c : Z) :
  cycles k (run_state gp c)
  = Ok (run_state (if decide (c ≤ target < c + Z.of_nat k)%Z
                   then <["stop" := VBool true]> gp else gp)
                  (c + Z.of_nat k)).
Proof.
  revert gp c. induction k as [|k IH]; intros gp c.
  - simpl. rewrite decide_False by lia. by rewrite Z.add_0_r.
  - cbn [cycles]. rewrite stop_step. simpl. rewrite IH.
    replace (c + 1 + Z.of_nat k)%Z with (c + Z.of_nat (S k))%Z by lia.
    f_equal. f_equal.
    destruct (decide (c = target)) as [->|Hne].
    + rewrite decide_False by lia. by rewrite decide_True by lia.
    + destruct (decide (c + 1 ≤ target < c + Z.of_nat (S k))%Z).
      * by rewrite decide_True by lia.
      * by rewrite decide_False by lia.
Qed.

(** The synchronous loop, started at or below the target, exits right
    after the step taken at the target. *)
Lemma stop_loop (d : nat) (c : Z) (fuel : nat) :
  (target - c = Z.of_nat d)%Z → d < fuel →
  while_not_stopped fuel (run_state {["stop" := VBool false]} c)
  = Some (Ok (run_state (<["stop" := VBool true]> {["stop" := VBool false]})
                        (target + 1))).
Proof.
  revert c fuel. induction d as [|d IH]; intros c fuel Hd Hfuel;
    (destruct fuel as [|fuel]; [lia|]); cbn [while_not_stopped];
    change (global_parameters (run_state ?gp _)) with gp;
    rewrite lookup_singleton_eq; cbn [is_false]; rewrite stop_step.
  - rewrite decide_True by lia. replace (c + 1)%Z with (target + 1)%Z by lia.
    destruct fuel; cbn [while_not_stopped];
      change (global_parameters (run_state ?gp _)) with gp;
      by rewrite lookup_insert_eq.
  - rewrite decide_False by lia. apply IH; lia.
Qed.
End stop_at_target.

(** C6. [CycleStopOperator(target).change(state)] sets
    [global_parameters.stop = true] when [state.cycle === target] and
    returns the state untouched on every other cycle; so along a run of
    cycle steps started at or below the target, stop is not set by any
    step before the one taken at the target, and is set from that step
    on. *)
Theorem cycle_stop_exactly_at_target (target : Z) :
  (∀ state,
     change (CycleStopOperator target) state
     = Ok (if decide (cycle state = target)
           then set_global_parameters state
                  (<["stop" := VBool true]> (global_parameters state))
           else state))
  ∧ (∀ (inds : list Individual) (gp : gmap string Value) (c : Z) (k : nat),
       (c ≤ target)%Z →
       ∃ state',
         cycles k {| global_parameters := gp; individuals := inds;
                     operators := [CycleStopOperator target]; cycle := c |}
         = Ok state' ∧
         cycle state' = (c + Z.of_nat k)%Z ∧
         ((c + Z.of_nat k ≤ target)%Z → global_parameters state' = gp) ∧
         ((target < c + Z.of_nat k)%Z →
            global_parameters state' = <["stop" := VBool true]> gp)).
Proof.
  split.
  - intros state. simpl. by case_decide.
  - intros inds gp c k Hc. eexists. split; [apply stop_run|]. simpl.
    split_and!; [done| |]; intros Hk.
    + by rewrite decide_False by lia.
    + by rewrite decide_True by lia.
Qed.

(** C3. [do_n_cycles(n, individuals, [])] from cycle 0 terminates for
    every [n >= 0] (any fuel above [n] is enough to leave the loop), and
    the state it returns has [cycle == n + 1], the same individuals and
    stop set. *)
Theorem do_n_cycles_no_operators (n : Z) (inds : list Individual) (fuel : nat) :
  (0 ≤ n)%Z → Z.to_nat n < fuel →
  ∃ state,
    sim_do_n_cycles (A := unit) fuel n inds [] 0 None = Some (Ok (inl state)) ∧
    cycle state = (n + 1)%Z ∧
    individuals state = inds ∧
    length (individuals state) = length inds ∧
    global_parameters state !! "stop" = Some (VBool true).
Proof.
  intros Hn Hfuel. unfold sim_do_n_cycles, sim_do_unspecified_cycles. simpl.
  rewrite (stop_loop (n + 0) inds (Z.to_nat n) 0 fuel) by lia. simpl.
  eexists. split; [done|]. simpl. split_and!; [lia|done..].
Qed.

Lemma do_n_cycles_no_operators_scenario :
  ∃ state,
    sim_do_n_cycles (A := unit) 3 2 (generate_n_basic_individuals 10) [] 0 None
    = Some (Ok (inl state)) ∧
    cycle state = 3%Z ∧ length (individuals state) = 10.
Proof.
  destruct (do_n_cycles_no_operators 2 (generate_n_basic_individuals 10) 3)
    as (state & Hrun & Hcycle & _ & Hlen & _); [lia | simpl; lia |].
  exists state. split_and!; [exact Hrun | exact Hcycle | exact Hlen].
Defined.

(** One invocation of the async driver is one cycle step on a state with
    fresh [global_parameters], and the continuation is handed over unless
    stop is set. *)
Lemma async_invocation {A} (inds : list Individual) (ops : list Operator) (prev : Z)
    (gp : gmap string Value) (callback : State → option Resume → A) :
  sim_do_async_cycles inds ops prev gp callback
  = (state ← sim_cycle {| global_parameters := {["stop" := VBool false]};
                          individuals := inds; operators := ops; cycle := prev |};
     Ok (callback state
           (if truthy (global_parameters state !! "stop") then None
            else Some {| r_individuals := individuals state;
                         r_operators := operators state;
                         r_previous_cycle := (prev + 1)%Z;
                         r_global_parameters := global_parameters state |}))).
Proof.
  unfold sim_do_async_cycles. destruct (sim_cycle _) as [[gp' inds' ops' c']|e]; simpl; [|done].
  by destruct (truthy _).
Qed.

(** C5, at the input where the two drivers part.  With a statistic that
    builds on the value it stored the cycle before and a stop at cycle 1,
    the synchronous driver ends with [seen = 2]; the async driver, resumed
    until it hands over no continuation, ends at the same cycle with
    [seen = 1], because each invocation starts from a fresh
    [global_parameters] and ignores the one bound for it. *)
Theorem async_forgets_global_parameters :
  ∃ sync_state async_state,
    sim_do_unspecified_cycles 3 [] [seen_cycles; CycleStopOperator 1] 0
    = Some (Ok sync_state) ∧
    async_run 3 {| r_individuals := []; r_operators := [seen_cycles; CycleStopOperator 1];
                   r_previous_cycle := 0; r_global_parameters := ∅ |}
    = Some (Ok async_state) ∧
    cycle sync_state = 2%Z ∧ cycle async_state = 2%Z ∧
    individuals sync_state = individuals async_state ∧
    global_parameters sync_state !! "seen" = Some (VNum 2) ∧
    global_parameters async_state !! "seen" = Some (VNum 1) ∧
    global_parameters sync_state ≠ global_parameters async_state.
Proof.
  eexists _, _. split; [vm_compute; reflexivity|]. split; [vm_compute; reflexivity|].
  split_and!; try (vm_compute; reflexivity).
  intros H. apply (f_equal (λ gp : gmap string Value, gp !! "seen")) in H.
  vm_compute in H. discriminate.
Qed.

(** ** Buffers and the haploid copy *)

Lemma ToUint8_byte (b : byte) : ToUint8 (Some (byte_to_Z b)) = b.
Proof.
  unfold ToUint8, byte_to_Z. pose proof (Byte.to_N_bounded b) as Hb.
  rewrite Z.mod_small by lia. rewrite N2Z.id. by rewrite Byte.of_to_N.
Qed.

Lemma u8_set_get_defined (src dst : list byte) (k j : nat) (b : byte) :
  src !! j = Some b → u8_set dst k (u8_get src j) = <[k := b]> dst.
Proof.
  intros H. unfold u8_set, u8_get. rewrite H.
  change (byte_to_Z <$> Some b) with (Some (byte_to_Z b)). by rewrite ToUint8_byte.
Qed.

Lemma slice_ext {A} (l1 l2 : list A) (a b n : nat) :
  (∀ j, j < n → l1 !! (a + j) = l2 !! (b + j)) → slice l1 a n = slice l2 b n.
Proof.
  intros H. apply list_eq. intros j. unfold slice.
  rewrite !lookup_take, !lookup_drop. case_decide; [by apply H | done].
Qed.

Lemma slice_length {A} (l : list A) (a n : nat) :
  a + n ≤ length l → length (slice l a n) = n.
Proof. intros H. unfold slice. rewrite length_take, length_drop. lia. Qed.

Lemma copied_length n i src dst sp dp :
  length (copied n i src dst sp dp) = length dst.
Proof.
  revert i dst. induction n as [|n IH]; intros i dst; simpl; [done|].
  rewrite IH. unfold u8_set. apply length_insert.
Qed.

Lemma copied_outside n i src dst sp dp k :
  k < dp + i ∨ dp + i + n ≤ k → copied n i src dst sp dp !! k = dst !! k.
Proof.
  revert i dst. induction n as [|n IH]; intros i dst Hk; simpl; [done|].
  rewrite IH by lia. unfold u8_set. apply list_lookup_insert_ne. lia.
Qed.

Lemma copied_inside n i src dst sp dp j :
  i ≤ j < i + n → dp + j < length dst →
  copied n i src dst sp dp !! (dp + j) = Some (ToUint8 (u8_get src (sp + j))).
Proof.
  revert i dst. induction n as [|n IH]; intros i dst Hj Hlen; simpl; [lia|].
  destruct (decide (j = i)) as [->|Hne].
  - rewrite copied_outside by lia. unfold u8_set. by apply list_lookup_insert_eq.
  - apply IH; [lia|]. unfold u8_set. by rewrite length_insert.
Qed.

Section haploid_copy.
Context (individual parent : Individual) (il pl : nat) (ofs_position parent_position : nat).
Context (Hil : genome individual = Some il) (Hpl : genome parent = Some pl).

(** The body of the loop of [gn_Chromosome.reproduce]. *)
Let body : nat → gmap nat (list byte) → Result (gmap nat (list byte)) :=
  λ i σ,
    il ← deref (genome individual);
    ibuf ← deref (σ !! il);
    p ← deref (Some parent);
    pl ← deref (genome p);
    pbuf ← deref (σ !! pl);
    Ok (<[il := u8_set ibuf (ofs_position + i) (u8_get pbuf (parent_position + i))]> σ).

(** The loop from index [i]: as long as no store lands on a byte that
    is still to be read, the result is the copy out of [src]. *)
Lemma reproduce_loop (n i : nat) (σ : gmap nat (list byte)) (src cur pcur : list byte) :
  σ !! il = Some cur → σ !! pl = Some pcur →
  (∀ j, i ≤ j < i + n → pcur !! (parent_position + j) = src !! (parent_position + j)) →
  il ≠ pl ∨ ofs_position ≤ parent_position ∨ parent_position + (i + n) ≤ ofs_position →
  for_loop n i body σ
  = Ok (<[il := copied n i src cur parent_position ofs_position]> σ).
Proof.
  revert i σ cur pcur. induction n as [|n IH]; intros i σ cur pcur Hcur Hpcur Hsrc Hsafe.
  - simpl. by rewrite insert_id.
  - assert (Hread : u8_get pcur (parent_position + i) = u8_get src (parent_position + i)).
    { unfold u8_get. rewrite Hsrc by lia. done. }
    set (cur1 := u8_set cur (ofs_position + i) (u8_get src (parent_position + i))).
    assert (Hstep : body i σ = Ok (<[il := cur1]> σ)).
    { unfold body, cur1. rewrite Hil. simpl. rewrite Hcur. simpl.
      rewrite Hpl. simpl. rewrite Hpcur. simpl. by rewrite Hread. }
    cbn [for_loop]. rewrite Hstep. cbn [mbind Result_bind].
    rewrite (IH (S i) _ cur1 (if decide (il = pl) then cur1 else pcur)).
    + by rewrite insert_insert_eq.
    + by rewrite lookup_insert_eq.
    + case_decide as Hal; [subst pl; by rewrite lookup_insert_eq|].
      by rewrite lookup_insert_ne.
    + intros j Hj. case_decide as Hal; [|apply Hsrc; lia].
      subst pl. rewrite Hcur in Hpcur. injection Hpcur as <-.
      rewrite <- Hsrc by lia. unfold cur1, u8_set.
      apply list_lookup_insert_ne. lia.
    + lia.
Qed.
End haploid_copy.

(** The whole call, in the three situations where it is a clean copy:
    different buffers, the same buffer copied onto itself or backwards, or
    the same buffer with the destination beyond the source range. *)
Lemma reproduce_copied (c : Chromosome) (σ : gmap nat (list byte))
    (individual parent : Individual) (il pl : nat) (ib pb : list byte) (ofs pp : nat) :
  genome individual = Some il → genome parent = Some pl →
  σ !! il = Some ib → σ !! pl = Some pb →
  il ≠ pl ∨ ofs ≤ pp ∨ pp + _size c ≤ ofs →
  gn_Chromosome_reproduce c σ individual (Some parent) ofs pp
  = Ok (<[il := copied (_size c) 0 pb ib pp ofs]> σ).
Proof.
  intros Hil Hpl Hib Hpb Hsafe. unfold gn_Chromosome_reproduce.
  by apply (reproduce_loop individual parent il pl ofs pp Hil Hpl _ 0 σ pb ib pb).
Qed.

(** C10, as the code has it.  When [individual] and [parent] do not share
    a genome buffer and both ranges lie inside their buffers, the base
    [reproduce] leaves every byte of [individual.genome] outside
    [ofs_position, ofs_position + s) unchanged, makes the bytes inside
    equal to [parent.genome[parent_position .. parent_position + s)], and
    leaves [parent.genome] (and every other buffer) as it was.  Here [s]
    is [_size], the size of the base chromosome. *)
Theorem base_reproduce_frame (c : Chromosome) (σ : gmap nat (list byte))
    (individual parent : Individual) (il pl : nat) (ib pb : list byte)
    (ofs_position parent_position : nat) :
  genome individual = Some il → genome parent = Some pl →
  σ !! il = Some ib → σ !! pl = Some pb →
  il ≠ pl →
  ofs_position + _size c ≤ length ib → parent_position + _size c ≤ length pb →
  ∃ σ' ib',
    gn_Chromosome_reproduce c σ individual (Some parent) ofs_position parent_position
    = Ok σ' ∧
    σ' !! il = Some ib' ∧
    length ib' = length ib ∧
    (∀ k, k < ofs_position ∨ ofs_position + _size c ≤ k → ib' !! k = ib !! k) ∧
    slice ib' ofs_position (_size c) = slice pb parent_position (_size c) ∧
    σ' !! pl = Some pb ∧
    (∀ l, l ≠ il → σ' !! l = σ !! l).
Proof.
  intros Hil Hpl Hib Hpb Hne Hofs Hpp.
  eexists _, _. split; [by eapply reproduce_copied; eauto|].
  split; [by rewrite lookup_insert_eq|]. split_and!.
  - apply copied_length.
  - intros k Hk. apply copied_outside. lia.
  - apply slice_ext. intros j Hj. rewrite copied_inside by lia.
    destruct (lookup_lt_is_Some_2 pb (parent_position + j)) as [b Hb]; [lia|].
    unfold u8_get. rewrite Hb. simpl. f_equal. apply (ToUint8_byte b).
  - by rewrite lookup_insert_ne.
  - intros l Hl. by rewrite lookup_insert_ne.
Qed.

Lemma base_reproduce_frame_example :
  ∃ σ' ib',
    gn_Chromosome_reproduce two_loci {[0 := [x01; x02; x03]; 1 := [x07; x08; x09]]}
      (individual_at 0) (Some (individual_at 1)) 1 0 = Ok σ' ∧
    σ' !! 0 = Some ib' ∧
    slice ib' 1 2 = [x07; x08] ∧
    σ' !! 1 = Some [x07; x08; x09].
Proof.
  destruct (base_reproduce_frame two_loci {[0 := [x01; x02; x03]; 1 := [x07; x08; x09]]}
              (individual_at 0) (individual_at 1) 0 1 [x01; x02; x03] [x07; x08; x09] 1 0)
    as (σ' & ib' & Hrun & Hind & _ & _ & Hin & Hpar & _);
    [reflexivity | reflexivity | reflexivity | reflexivity | lia
    | vm_compute; lia | vm_compute; lia |].
  exists σ', ib'. split_and!; [exact Hrun | exact Hind | exact Hin | exact Hpar].
Defined.

(** The same call with one buffer in both roles: the forward loop reads
    bytes it has just written, so the parent's genome is changed and the
    range is not the parent's range as it was. *)
Lemma base_reproduce_shared_buffer :
  gn_Chromosome_reproduce two_loci {[0 := [x01; x02; x03]]}
    (individual_at 0) (Some (individual_at 0)) 1 0
  = Ok {[0 := [x01; x01; x01]]}
  ∧ slice [x01; x01; x01] 1 2 ≠ slice [x01; x02; x03] 0 2
  ∧ ({[0 := [x01; x01; x01]]} : gmap nat (list byte)) !! 0
    ≠ ({[0 := [x01; x02; x03]]} : gmap nat (list byte)) !! 0.
Proof.
  split_and!; [by vm_compute | by vm_compute | by vm_compute].
Qed.

(** ** The autosome layer *)

Lemma copied_inside_defined n i src dst sp dp j :
  i ≤ j < i + n → dp + j < length dst → sp + j < length src →
  copied n i src dst sp dp !! (dp + j) = src !! (sp + j).
Proof.
  intros Hj Hdst Hsrc. rewrite copied_inside by done.
  destruct (lookup_lt_is_Some_2 src (sp + j)) as [b Hb]; [done|].
  unfold u8_get. rewrite Hb. simpl. f_equal. apply (ToUint8_byte b).
Qed.

(** The two base calls of the autosome layer, for parents taken in the
    order [x], [y]; the buffers may be shared in any way. *)
Lemma two_gametes (c : Chromosome) (σ : gmap nat (list byte))
    (individual x y : Individual) (il lx ly : nat) (ib xb yb : list byte)
    (position : nat) :
  genome individual = Some il → genome x = Some lx → genome y = Some ly →
  σ !! il = Some ib → σ !! lx = Some xb → σ !! ly = Some yb →
  position + 2 * _size c ≤ length ib →
  position + _size c ≤ length xb → position + _size c ≤ length yb →
  ∃ σ' fb f1 f2,
    (σ1 ← gn_Chromosome_reproduce c σ individual (Some x) position position;
     gn_Chromosome_reproduce c σ1 individual (Some y) (position + _size c) position)
    = Ok σ' ∧
    σ' !! il = Some fb ∧ σ' !! lx = Some f1 ∧ σ' !! ly = Some f2 ∧
    slice fb position (_size c) = slice f1 position (_size c) ∧
    slice fb (position + _size c) (_size c) = slice f2 position (_size c) ∧
    (il ≠ lx → il ≠ ly → f1 = xb ∧ f2 = yb) ∧
    length fb = length ib ∧
    (∀ l, l ≠ il → σ' !! l = σ !! l).
Proof.
  intros Hil Hlx Hly Hib Hxb Hyb Hlen Hlenx Hleny.
  set (h := _size c) in *.
  rewrite (reproduce_copied c σ individual x il lx ib xb position position)
    by (try done; lia).
  fold h. set (ib1 := copied h 0 xb ib position position).
  cbn [mbind Result_bind].
  set (yb1 := if decide (il = ly) then ib1 else yb).
  assert (Hyb1 : <[il := ib1]> σ !! ly = Some yb1).
  { unfold yb1. case_decide as Hal; [subst ly; by rewrite lookup_insert_eq|].
    by rewrite lookup_insert_ne. }
  assert (Hlen1 : length ib1 = length ib) by apply copied_length.
  assert (Hlenyb1 : position + h ≤ length yb1).
  { unfold yb1. case_decide; lia. }
  assert (Hib1 : <[il := ib1]> σ !! il = Some ib1) by (by rewrite lookup_insert_eq).
  rewrite (reproduce_copied c _ individual y il ly ib1 yb1 (position + h) position
             Hil Hly Hib1 Hyb1) by (fold h; lia).
  fold h. rewrite insert_insert_eq.
  set (ib2 := copied h 0 yb1 ib1 position (position + h)).
  assert (F1 : ∀ j, j < h → ib1 !! (position + j) = xb !! (position + j)).
  { intros j Hj. apply copied_inside_defined; lia. }
  assert (F2 : ∀ j, j < h → ib2 !! (position + j) = ib1 !! (position + j)).
  { intros j Hj. apply copied_outside. lia. }
  assert (F3 : ∀ j, j < h → ib2 !! (position + h + j) = yb1 !! (position + j)).
  { intros j Hj. apply copied_inside_defined; lia. }
  exists (<[il := ib2]> σ), ib2,
    (if decide (il = lx) then ib2 else xb), (if decide (il = ly) then ib2 else yb).
  split_and!.
  - done.
  - by rewrite lookup_insert_eq.
  - case_decide as Hal; [subst lx; by rewrite lookup_insert_eq|].
    by rewrite lookup_insert_ne.
  - case_decide as Hal; [subst ly; by rewrite lookup_insert_eq|].
    by rewrite lookup_insert_ne.
  - case_decide; [done|]. apply slice_ext. intros j Hj. by rewrite F2, F1.
  - apply slice_ext. intros j Hj. rewrite F3 by done. unfold yb1.
    case_decide; [by rewrite F2|done].
  - intros H1 H2. by rewrite !decide_False.
  - unfold ib2. by rewrite copied_length.
  - intros l Hl. by rewrite lookup_insert_ne.
Qed.

Lemma pair_size (c : Chromosome) : layers c = [Autosome] → size c = 2 * _size c.
Proof. unfold size. by intros ->. Qed.

(** The threshold splits the draws evenly: shifting by 1/2 carries the
    draws that pick [(b, a)] onto those that pick [(a, b)]. *)
Lemma orientation_halves {A} (x y : A) (r : Q) :
  (0 <= r)%Q → (r < 1 # 2)%Q →
  (if Qlt_le_dec r (1 # 2) then (y, x) else (x, y)) = (y, x) ∧
  (if Qlt_le_dec (r + (1 # 2)) (1 # 2) then (y, x) else (x, y)) = (x, y).
Proof.
  intros H0 Hr. split.
  - destruct (Qlt_le_dec r (1 # 2)) as [_|H]; [done|].
    exfalso. by apply (Qlt_not_le _ _ Hr).
  - destruct (Qlt_le_dec (r + (1 # 2)) (1 # 2)) as [H|_]; [|done].
    exfalso. apply (Qlt_not_le _ _ H).
    rewrite <- (Qplus_0_l (1 # 2)) at 1. apply Qplus_le_l. exact H0.
Qed.

(** C2. A call of the autosome layer's [reproduce] on a chromosome of
    size [2h] with [parents = [a, b]] succeeds and there is an order
    [(p1, p2)] of the two parents, [(b, a)] when the draw is below 1/2 and
    [(a, b)] otherwise (the two halves of the unit interval), such that
    afterwards [individual.genome[position .. position + h)] equals
    [p1.genome[position .. position + h)] and
    [individual.genome[position + h .. position + 2h)] equals
    [p2.genome[position .. position + h)]: both halves come from offset
    [position] of the parent.  The buffers are those of the chromosome's
    genome, so the ranges lie inside them; when the individual shares no
    buffer with a parent, the parents' buffers are as before the call.
    The two orders are equally likely under a uniform draw: the shift by
    1/2 maps the draws of one onto the draws of the other. *)
Theorem autosome_reproduce_gametes (c : Chromosome) (σ : gmap nat (list byte))
    (individual a b : Individual) (il la lb : nat) (ib ab bb : list byte)
    (position : nat) (random : Q) :
  layers c = [Autosome] →
  genome individual = Some il → genome a = Some la → genome b = Some lb →
  σ !! il = Some ib → σ !! la = Some ab → σ !! lb = Some bb →
  position + 2 * _size c ≤ length ib →
  position + _size c ≤ length ab → position + _size c ≤ length bb →
  ∃ σ' p1 p2 l1 l2 fb f1 f2,
    gn_Autosome_reproduce c σ individual [a; b] position random = Ok σ' ∧
    size c = 2 * _size c ∧
    (p1, p2) = (if Qlt_le_dec random (1 # 2) then (b, a) else (a, b)) ∧
    ((p1, p2) = (a, b) ∨ (p1, p2) = (b, a)) ∧
    genome p1 = Some l1 ∧ genome p2 = Some l2 ∧
    σ' !! il = Some fb ∧ σ' !! l1 = Some f1 ∧ σ' !! l2 = Some f2 ∧
    slice fb position (_size c) = slice f1 position (_size c) ∧
    slice fb (position + _size c) (_size c) = slice f2 position (_size c) ∧
    length (slice fb position (_size c)) = _size c ∧
    length (slice fb (position + _size c) (_size c)) = _size c ∧
    (il ≠ la → il ≠ lb → σ' !! la = Some ab ∧ σ' !! lb = Some bb) ∧
    (∀ r, (0 <= r)%Q → (r < 1 # 2)%Q →
       (if Qlt_le_dec r (1 # 2) then (b, a) else (a, b)) = (b, a) ∧
       (if Qlt_le_dec (r + (1 # 2)) (1 # 2) then (b, a) else (a, b)) = (a, b)).
Proof.
  intros Hls Hil Hla Hlb Hib Hab Hbb Hlen Hlena Hlenb.
  pose proof (orientation_halves a b) as Hhalves.
  pose proof (pair_size c Hls) as Hsize.
  unfold gn_Autosome_reproduce. rewrite Hsize.
  replace (2 * _size c / 2) with (_size c) by (symmetry; rewrite Nat.mul_comm; by apply Nat.div_mul).
  destruct (Qlt_le_dec random (1 # 2)) as [Hlt|Hge]; cbn [lookup list_lookup].
  - destruct (two_gametes c σ individual b a il lb la ib bb ab position)
      as (σ' & fb & f1 & f2 & Hrun & Hfb & Hf1 & Hf2 & Hs1 & Hs2 & Hpre & Hfl & Hother);
      try done.
    exists σ', b, a, lb, la, fb, f1, f2. split_and!; try done.
    + by right.
    + apply slice_length. lia.
    + apply slice_length. lia.
    + intros H1 H2. destruct (Hpre H2 H1) as [-> ->]. done.
  - destruct (two_gametes c σ individual a b il la lb ib ab bb position)
      as (σ' & fb & f1 & f2 & Hrun & Hfb & Hf1 & Hf2 & Hs1 & Hs2 & Hpre & Hfl & Hother);
      try done.
    exists σ', a, b, la, lb, fb, f1, f2. split_and!; try done.
    + by left.
    + apply slice_length. lia.
    + apply slice_length. lia.
    + intros H1 H2. destruct (Hpre H1 H2) as [-> ->]. done.
Qed.

Lemma autosome_reproduce_gametes_example :
  ∃ σ' fb,
    gn_Autosome_reproduce two_loci_pair
      {[0 := [x00; x00; x00; x00]; 1 := [x01; x02; x03; x04]; 2 := [x05; x06; x07; x08]]}
      (individual_at 0) [individual_at 1; individual_at 2] 0 (1 # 4) = Ok σ' ∧
    σ' !! 0 = Some fb ∧
    slice fb 0 2 = [x05; x06] ∧ slice fb 2 2 = [x01; x02].
Proof.
  destruct (autosome_reproduce_gametes two_loci_pair
              {[0 := [x00; x00; x00; x00]; 1 := [x01; x02; x03; x04];
                2 := [x05; x06; x07; x08]]}
              (individual_at 0) (individual_at 1) (individual_at 2) 0 1 2
              [x00; x00; x00; x00] [x01; x02; x03; x04] [x05; x06; x07; x08] 0 (1 # 4))
    as (σ' & p1 & p2 & l1 & l2 & fb & f1 & f2 & Hrun & _ & Hp & _ & Hl1 & Hl2 &
        Hfb & Hf1 & Hf2 & Hs1 & Hs2 & _ & _ & Hpre & _);
    [reflexivity | reflexivity | reflexivity | reflexivity | reflexivity | reflexivity
    | reflexivity | vm_compute; lia | vm_compute; lia | vm_compute; lia |].
  injection Hp as -> ->. injection Hl1 as <-. injection Hl2 as <-.
  destruct Hpre as [Ha Hb]; [lia | lia |].
  rewrite Hf1 in Hb. injection Hb as ->. rewrite Hf2 in Ha. injection Ha as ->.
  exists σ', fb. split_and!; [exact Hrun | exact Hfb | exact Hs1 | exact Hs2].
Defined.

(** ** The genome builder *)

Lemma byte_to_Z_ToUint8 (v : Z) : uint8 v → byte_to_Z (ToUint8 (Some v)) = v.
Proof.
  unfold uint8, ToUint8, byte_to_Z. intros Hv. rewrite Z.mod_small by lia.
  destruct (Byte.of_N (Z.to_N v)) as [b|] eqn:E.
  - simpl. apply Byte.to_of_N in E. rewrite E. lia.
  - apply Byte.of_N_None_iff in E. lia.
Qed.

(** [Math.floor(random * n)] is an index below [n]. *)
Lemma floor_scaled_index (random : Q) (n : nat) :
  (0 <= random)%Q → (random < 1)%Q → 0 < n →
  (0 ≤ Qfloor (random * inject_Z (Z.of_nat n)) < Z.of_nat n)%Z.
Proof.
  intros H0 H1 Hn.
  assert (Hpos : (0 < inject_Z (Z.of_nat n))%Q).
  { change 0%Q with (inject_Z 0). rewrite <- Zlt_Qlt. lia. }
  split.
  - change 0%Z with (Qfloor 0). apply Qfloor_resp_le.
    apply Qmult_le_0_compat; [done | by apply Qlt_le_weak].
  - rewrite Zlt_Qlt. eapply Qle_lt_trans; [apply Qfloor_le|].
    rewrite <- (Qmult_1_l (inject_Z (Z.of_nat n))) at 2.
    by apply Qmult_lt_compat_r.
Qed.

Lemma random_choice_offered (random : Q) (choices : list Z) :
  (0 <= random)%Q → (random < 1)%Q → choices ≠ [] →
  ∃ v, utils_random_choice random choices = Some v ∧ v ∈ choices.
Proof.
  intros H0 H1 Hne. unfold utils_random_choice, js_index.
  assert (Hlen : 0 < length choices) by (destruct choices; [done | simpl; lia]).
  pose proof (floor_scaled_index random (length choices) H0 H1 Hlen) as [Hlo Hhi].
  destruct (Z.ltb_spec (Qfloor (random * inject_Z (Z.of_nat (length choices)))) 0);
    [lia|].
  destruct (lookup_lt_is_Some_2 choices
              (Z.to_nat (Qfloor (random * inject_Z (Z.of_nat (length choices))))))
    as [v Hv]; [lia|].
  exists v. split; [done|]. by eapply list_elem_of_lookup_2.
Qed.

Lemma random_chooser_picks_offered (rnd : nat → Q) :
  (∀ n, (0 <= rnd n)%Q ∧ (rnd n < 1)%Q) → picks_offered (random_chooser rnd).
Proof.
  intros Hrnd pv k Hne. unfold random_chooser. simpl.
  destruct (Hrnd k). by apply random_choice_offered.
Qed.

Lemma markers_cover_size (c : Chromosome) :
  Forall (λ l, l = Autosome ∨ l = Mito ∨ l = YChromosome) (layers c) →
  length (markers c) = size c.
Proof.
  unfold markers, size. induction (layers c) as [|l ls IH]; intros H; [done|].
  apply Forall_cons in H as [Hl Hls]. specialize (IH Hls).
  destruct Hl as [->|[->| ->]]; simpl; [|done..].
  rewrite length_app. lia.
Qed.

Section builder.
Context {St : Type} (func : list Z → St → option Z * St).
Context (Hfunc : picks_offered func).

Lemma fill_features_spec (features : list Marker) (position i : nat)
    (data : list byte) (s : St) :
  (∀ m, m ∈ features → possible_values m ≠ [] ∧ Forall uint8 (possible_values m)) →
  position + i + length features ≤ length data →
  ∃ data' s',
    fill_features func features position i data s = (data', s') ∧
    length data' = length data ∧
    (∀ p, p < position + i ∨ position + i + length features ≤ p →
          data' !! p = data !! p) ∧
    (∀ j m, features !! j = Some m →
            ∃ b, data' !! (position + i + j) = Some b ∧
                 byte_to_Z b ∈ possible_values m).
Proof.
  revert i data s. induction features as [|m features IH]; intros i data s Hpv Hlen.
  - exists data, s. split_and!; [done..|]. intros j m' H. by rewrite lookup_nil in H.
  - cbn [fill_features]. simpl in Hlen.
    destruct (Hpv m) as [Hne Hbytes]; [by left|].
    destruct (Hfunc (possible_values m) s Hne) as (v & Hv & Hin).
    destruct (func (possible_values m) s) as [v' s1]. simpl in Hv. subst v'.
    destruct (IH (S i) (u8_set data (position + i) (Some v)) s1)
      as (data' & s' & Hrun & Hlen' & Hout & Hins).
    { intros m' Hm'. apply Hpv. by right. }
    { unfold u8_set. rewrite length_insert. lia. }
    exists data', s'. split; [done|]. unfold u8_set in *. rewrite length_insert in Hlen'.
    split_and!; [done| |].
    + intros p Hp. simpl in Hp. rewrite Hout by lia. apply list_lookup_insert_ne. lia.
    + intros [|j] m' Hj; simpl in Hj.
      * injection Hj as <-. exists (ToUint8 (Some v)).
        rewrite Nat.add_0_r, Hout by lia.
        split; [apply list_lookup_insert_eq; lia|].
        rewrite byte_to_Z_ToUint8; [done|].
        by eapply (proj1 (Forall_forall _ _) Hbytes).
      * destruct (Hins j m' Hj) as (b & Hb & Hbin). exists b.
        by replace (position + i + S j) with (position + S i + j) by lia.
Qed.

Context (metadata : list (string * Chromosome)) (Hnd : NoDup (obj_keys metadata)).

(** The body of the outer loop of [create_simple_genome]. *)
Let body : string → list byte * nat * St → Result (list byte * nat * St) :=
  λ marker_name '(genome_data, position, s),
    marker ← deref (obj_get metadata marker_name);
    let features := markers marker in
    let '(genome_data', s') :=
      fill_features func features position 0 genome_data s in
    Ok (genome_data', position + size marker, s').

Lemma build_loop (entries : list (string * Chromosome)) (data : list byte)
    (position : nat) (s : St) :
  (∀ e, e ∈ entries → e ∈ metadata) →
  (∀ n c, (n, c) ∈ entries → length (markers c) = size c ∧ loci_offer_bytes c) →
  position + total_size entries ≤ length data →
  ∃ data' s',
    for_of (obj_keys entries) body (data, position, s)
    = Ok (data', position + total_size entries, s') ∧
    length data' = length data ∧
    (∀ p, p < position → data' !! p = data !! p) ∧
    (∀ j n c i m, entries !! j = Some (n, c) → markers c !! i = Some m →
       ∃ b, data' !! (position + total_size (take j entries) + i) = Some b ∧
            byte_to_Z b ∈ possible_values m).
Proof.
  revert data position s.
  induction entries as [|[n c] entries IH]; intros data position s Hsub Hok Hlen.
  - exists data, s. simpl. rewrite Nat.add_0_r. split_and!; [done..|].
    intros j n c i m H. by rewrite lookup_nil in H.
  - change (total_size ((n, c) :: entries)) with (size c + total_size entries) in *.
    destruct (Hok n c) as [Hcover Hloci]; [by left|].
    destruct (fill_features_spec (markers c) position 0 data s Hloci)
      as (data1 & s1 & Hfill & Hlen1 & Hout1 & Hin1); [lia|].
    assert (Hstep : body n (data, position, s) = Ok (data1, position + size c, s1)).
    { unfold body. rewrite (obj_get_entry metadata n c Hnd) by (apply Hsub; by left).
      simpl. by rewrite Hfill. }
    destruct (IH data1 (position + size c) s1)
      as (data' & s' & Hrun & Hlen' & Hkeep & Hins).
    { intros e He. apply Hsub. by right. }
    { intros n' c' H'. apply (Hok n'). by right. }
    { lia. }
    change (obj_keys ((n, c) :: entries)) with (n :: obj_keys entries).
    cbn [for_of]. rewrite Hstep. cbn [mbind Result_bind].
    exists data', s'. rewrite Hrun. split_and!.
    + f_equal. f_equal. f_equal. lia.
    + lia.
    + intros p Hp. rewrite Hkeep by lia. apply Hout1. lia.
    + intros [|j] n' c' i m Hj Hm; simpl in Hj.
      * injection Hj as <- <-.
        assert (i < size c).
        { rewrite <- Hcover. by eapply lookup_lt_Some. }
        destruct (Hin1 i m Hm) as (b & Hb & Hbin). exists b. split; [|done].
        change (total_size (take 0 ((n, c) :: entries))) with 0.
        rewrite Hkeep by lia. exact Hb.
      * destruct (Hins j n' c' i m Hj Hm) as (b & Hb & Hbin). exists b. split; [|done].
        change (total_size (take (S j) ((n, c) :: entries)))
          with (size c + total_size (take j entries)).
        rewrite <- Hb. f_equal. lia.
Qed.
End builder.

(** Every position of the genome lies in the range of some chromosome. *)
Lemma position_covered (entries : list (string * Chromosome)) (p : nat) :
  p < total_size entries →
  ∃ k n c i, entries !! k = Some (n, c) ∧ i < size c ∧
             p = total_size (take k entries) + i.
Proof.
  revert p. induction entries as [|[n c] entries IH]; intros p Hp.
  - unfold total_size in Hp. simpl in Hp. lia.
  - change (total_size ((n, c) :: entries)) with (size c + total_size entries) in Hp.
    destruct (decide (p < size c)) as [Hlt|Hge].
    + exists 0, n, c, p. split_and!; [done..|].
      change (total_size (take 0 ((n, c) :: entries))) with 0. lia.
    + destruct (IH (p - size c)) as (k & n' & c' & i & Hk & Hi & Hpos); [lia|].
      exists (S k), n', c', i. split_and!; [done..|].
      change (total_size (take (S k) ((n, c) :: entries)))
        with (size c + total_size (take k entries)). lia.
Qed.

Lemma genome_nonempty (metadata : list (string * Chromosome)) (g : Genome) :
  gn_Genome metadata = Ok g → metadata ≠ [].
Proof. intros H ->. discriminate H. Qed.

(** C9, as the code has it.  For a genome whose chromosomes all have as
    many [markers] as their [size] (plain chromosomes and their
    Autosome, Mito and Y compositions) and whose loci offer at least one
    value, all of them bytes, [create_simple_genome] with the random
    chooser succeeds for any draws and makes a buffer of length
    [genome.size]; every position of it belongs to a chromosome, and the
    byte at the [i]-th position of a chromosome is one of the
    [possible_values] of its [i]-th marker, in both gamete copies. *)
Theorem randomized_genome_offered_values (rnd : nat → Q) (σ : gmap nat (list byte))
    (individual : Individual) (k : nat) (metadata : list (string * Chromosome))
    (g : Genome) :
  (∀ n, (0 <= rnd n)%Q ∧ (rnd n < 1)%Q) →
  NoDup (obj_keys metadata) →
  gn_Genome metadata = Ok g →
  _genome (species individual) = g →
  (∀ n c, (n, c) ∈ metadata → length (markers c) = size c ∧ loci_offer_bytes c) →
  ∃ σ' individual' k' l buf,
    integrated_create_randomized_genome rnd σ individual k = Ok (σ', individual', k') ∧
    genome individual' = Some l ∧ σ' !! l = Some buf ∧
    length buf = Genome_size g ∧
    (∀ p, p < Genome_size g →
       ∃ n c start i, obj_get metadata n = Some c ∧ get_marker_start g n = Some start ∧
                      i < size c ∧ p = start + i) ∧
    (∀ n c start i,
       obj_get metadata n = Some c → get_marker_start g n = Some start → i < size c →
       ∃ b m, buf !! (start + i) = Some b ∧ markers c !! i = Some m ∧
              byte_to_Z b ∈ possible_values m) ∧
    σ !! l = None ∧ (∀ l', l' ≠ l → σ' !! l' = σ !! l').
Proof.
  intros Hrnd Hnd Hg Hspecies Hok.
  destruct (genome_starts metadata (genome_nonempty _ _ Hg) Hnd)
    as (g' & Hg' & Hmeta & Horder & Hsize & Hstart & _).
  rewrite Hg in Hg'. injection Hg' as <-.
  destruct (build_loop (random_chooser rnd) (random_chooser_picks_offered rnd Hrnd)
              metadata Hnd metadata (replicate (Genome_size g) "000"%byte) 0 k)
    as (buf & k' & Hrun & Hlen & _ & Hins); [done | done | |].
  { rewrite length_replicate. lia. }
  rewrite length_replicate in Hlen.
  unfold integrated_create_randomized_genome, integrated_create_simple_genome.
  cbv zeta in Hrun |- *. rewrite Hspecies, Hmeta, Horder, Hrun. cbn [mbind Result_bind].
  eexists _, _, _, (fresh (dom σ)), buf. split; [done|].
  assert (Hfresh : σ !! fresh (dom σ) = None).
  { apply not_elem_of_dom. apply is_fresh. }
  split_and!; [done | by rewrite lookup_insert_eq | done | | | done |].
  - intros p Hp. rewrite Hsize in Hp.
    destruct (position_covered metadata p Hp) as (j & n & c & i & Hj & Hi & ->).
    exists n, c, (total_size (take j metadata)), i. split_and!; [|by eapply Hstart|done..].
    apply obj_get_entry; [done|]. by eapply list_elem_of_lookup_2.
  - intros n c start i Hc Hs Hi.
    destruct (list_elem_of_lookup_1 _ _ (obj_get_Some _ _ _ Hc)) as [j Hj].
    rewrite (Hstart _ _ _ Hj) in Hs. injection Hs as <-.
    destruct (Hok n c) as [Hcover _]; [by eapply list_elem_of_lookup_2|].
    destruct (lookup_lt_is_Some_2 (markers c) i) as [m Hm]; [lia|].
    destruct (Hins j n c i m Hj Hm) as (b & Hb & Hbin). by exists b, m.
  - intros l' Hl'. by rewrite lookup_insert_ne.
Qed.

Lemma two_loci_pair_usable (n : string) (c : Chromosome) :
  (n, c) ∈ [("unlinked"%string, two_loci_pair)] →
  length (markers c) = size c ∧ loci_offer_bytes c.
Proof.
  intros H. apply list_elem_of_singleton in H. injection H as -> ->.
  split; [done|]. intros m Hm. vm_compute in Hm.
  assert (m = SNP_default) as ->.
  { repeat (apply elem_of_cons in Hm as [Hm|Hm]; [done|]). by apply elem_of_nil in Hm. }
  split; [done|]. unfold SNP_default, uint8. simpl. repeat constructor; lia.
Qed.

Lemma third_in_unit_interval (n : nat) : (0 <= 1 # 3)%Q ∧ (1 # 3 < 1)%Q.
Proof. done. Qed.

Lemma randomized_genome_offered_values_example :
  ∃ g σ' individual' k' l buf,
    gn_Genome [("unlinked"%string, two_loci_pair)] = Ok g ∧
    integrated_create_randomized_genome (λ _, (1 # 3)%Q) ∅ (individual_of g) 0
    = Ok (σ', individual', k') ∧
    genome individual' = Some l ∧ σ' !! l = Some buf ∧ length buf = Genome_size g.
Proof.
  destruct (genome_built [("unlinked"%string, two_loci_pair)]) as (g & Hg & _); [done|].
  destruct (randomized_genome_offered_values (λ _, (1 # 3)%Q) ∅ (individual_of g) 0
              [("unlinked"%string, two_loci_pair)] g)
    as (σ' & individual' & k' & l & buf & Hrun & Hl & Hbuf & Hlen & _);
    [exact third_in_unit_interval | compute_done | exact Hg | reflexivity
    | exact two_loci_pair_usable |].
  exists g, σ', individual', k', l, buf.
  split_and!; [exact Hg | exact Hrun | exact Hl | exact Hbuf | exact Hlen].
Defined.

(** Under the X layer (as under the unlinked and linked autosome layers)
    the size is doubled and [markers] is not, so the second half of the
    range is never written: position 1 keeps the 0 the buffer was
    created with, which the only locus of the chromosome does not
    offer. *)
Lemma randomized_genome_x_layer :
  ∃ g σ' individual' k' l,
    gn_Genome x_linked_metadata = Ok g ∧
    integrated_create_randomized_genome (λ _, (1 # 3)%Q) ∅ (individual_of g) 0
    = Ok (σ', individual', k') ∧
    genome individual' = Some l ∧
    Genome_size g = 2 ∧
    σ' !! l = Some [x01; x00] ∧
    (∀ n c m, obj_get x_linked_metadata n = Some c → m ∈ markers c →
              possible_values m = [1; 2]%Z) ∧
    byte_to_Z x00 ∉ [1; 2]%Z.
Proof.
  eexists _, _, _, _, _. split; [vm_compute; reflexivity|].
  split; [vm_compute; reflexivity|]. split; [vm_compute; reflexivity|].
  split; [vm_compute; reflexivity|]. split; [vm_compute; reflexivity|]. split.
  - intros n c m Hc Hm. unfold x_linked_metadata in Hc. simpl in Hc.
    case_decide; [|done]. injection Hc as <-. vm_compute in Hm.
    apply elem_of_cons in Hm as [->|Hm]; [done|]. by apply elem_of_nil in Hm.
  - vm_compute. intros H. repeat (apply elem_of_cons in H as [H|H]; [done|]).
    by apply elem_of_nil in H.
Qed.

(** ** Allele counts *)

Lemma count_allele_counted (allele : option Z) (m : nat) :
  count_allele allele (counted allele m) = counted allele (S m).
Proof.
  unfold count_allele, counted. rewrite (decide_False (P := S m = 0)) by lia.
  case_decide as Hm.
  - subst m. rewrite lookup_empty. by rewrite insert_empty.
  - rewrite lookup_singleton_eq, insert_singleton_eq. f_equal. lia.
Qed.

Section identical_population.
Context (σ : gmap nat (list byte)) (buf : list byte).

(** One pass over the population at one position. *)
Lemma tally_pass (inds : list Individual) (position i m : nat) :
  identical_genomes σ buf inds →
  for_of inds
    (λ individual feature_counts,
       l ← deref (genome individual);
       buf ← deref (σ !! l);
       let allele := u8_get buf (position + i) in
       Ok (count_allele allele feature_counts))
    (counted (u8_get buf (position + i)) m)
  = Ok (counted (u8_get buf (position + i)) (m + length inds)).
Proof.
  revert m. induction inds as [|ind inds IH]; intros m Hsame.
  - simpl. by rewrite Nat.add_0_r.
  - apply Forall_cons in Hsame as [(l & Hl & Hbuf) Hsame].
    cbn [for_of]. rewrite Hl. simpl. rewrite Hbuf. simpl.
    rewrite count_allele_counted, IH by done. f_equal. f_equal. lia.
Qed.

Lemma feature_table_identical (inds : list Individual) (start : list nat)
    (position i : nat) :
  identical_genomes σ buf inds →
  feature_table σ inds start position i
  = Ok (counted (u8_get buf (position + i)) (length start * length inds)).
Proof.
  intros Hsame. unfold feature_table.
  assert (Hgen : ∀ m,
    for_of start
      (λ my_start feature_counts,
         for_of inds
           (λ individual feature_counts,
              l ← deref (genome individual);
              buf ← deref (σ !! l);
              let allele := u8_get buf (position + i) in
              Ok (count_allele allele feature_counts))
           feature_counts)
      (counted (u8_get buf (position + i)) m)
    = Ok (counted (u8_get buf (position + i)) (m + length start * length inds))).
  { induction start as [|my_start start IH]; intros m.
    - simpl. by rewrite Nat.add_0_r.
    - cbn [for_of]. rewrite tally_pass by done. cbn [mbind Result_bind].
      rewrite IH. f_equal. f_equal. simpl. lia. }
  apply (Hgen 0).
Qed.
End identical_population.

Lemma table_total_counted (allele : option Z) (m : nat) :
  table_total (counted allele m) = m.
Proof.
  unfold table_total, counted. case_decide as Hm.
  - by rewrite map_fold_empty.
  - rewrite map_fold_singleton. lia.
Qed.

Section counts.
Context (σ : gmap nat (list byte)) (buf : list byte) (inds : list Individual).
Context (Hsame : identical_genomes σ buf inds).

(** The loop over the loci of one chromosome. *)
Lemma marker_counts_identical (start : list nat) (position nf i0 : nat)
    (acc : list (gmap (option Z) nat)) :
  for_loop nf i0
    (λ i marker_counts,
       feature_counts ← feature_table σ inds start position i;
       Ok (marker_counts ++ [feature_counts]))
    acc
  = Ok (acc ++ ((λ i, counted (u8_get buf (position + i)) (length start * length inds))
                  <$> seq i0 nf)).
Proof.
  revert i0 acc. induction nf as [|nf IH]; intros i0 acc.
  - simpl. by rewrite app_nil_r.
  - cbn [for_loop]. rewrite (feature_table_identical σ buf inds start position i0 Hsame).
    cbn [mbind Result_bind]. rewrite IH, <- app_assoc. done.
Qed.

Context (metadata : list (string * Chromosome)) (Hnd : NoDup (obj_keys metadata)).

(** The body of the loop over [marker_order]. *)
Let body : string → gmap string (list (gmap (option Z) nat)) * nat
           → Result (gmap string (list (gmap (option Z) nat)) * nat) :=
  λ marker_name '(counts, position),
    marker ← deref (obj_get metadata marker_name);
    let '(num_features, start) := scan_plan marker in
    marker_counts ←
      for_loop num_features 0
        (λ i marker_counts,
           feature_counts ← feature_table σ inds start position i;
           Ok (marker_counts ++ [feature_counts]))
        [];
    Ok (<[marker_name := marker_counts]> counts, position + size marker).

Lemma counts_loop (entries : list (string * Chromosome))
    (counts : gmap string (list (gmap (option Z) nat))) (position : nat) :
  (∀ e, e ∈ entries → e ∈ metadata) →
  NoDup (obj_keys entries) →
  ∃ counts',
    for_of (obj_keys entries) body (counts, position)
    = Ok (counts', position + total_size entries) ∧
    (∀ k n c, entries !! k = Some (n, c) →
       counts' !! n
       = Some (identical_tables buf (length inds) c
                 (position + total_size (take k entries)))) ∧
    (∀ n, n ∉ obj_keys entries → counts' !! n = counts !! n).
Proof.
  revert counts position.
  induction entries as [|[n c] entries IH]; intros counts position Hsub Hnd'.
  - exists counts. simpl. rewrite Nat.add_0_r. split_and!; [done| |done].
    intros k n c H. by rewrite lookup_nil in H.
  - change (total_size ((n, c) :: entries)) with (size c + total_size entries).
    change (obj_keys ((n, c) :: entries)) with (n :: obj_keys entries) in *.
    apply NoDup_cons in Hnd' as [Hn Hnd'].
    assert (Hstep : body n (counts, position)
                    = Ok (<[n := identical_tables buf (length inds) c position]> counts,
                          position + size c)).
    { unfold body. rewrite (obj_get_entry metadata n c Hnd) by (apply Hsub; by left).
      cbn [mbind Result_bind deref]. unfold identical_tables.
      destruct (scan_plan c) as [nf start]. rewrite marker_counts_identical. done. }
    destruct (IH (<[n := identical_tables buf (length inds) c position]> counts)
                (position + size c))
      as (counts' & Hrun & Hat & Hother); [|done|].
    { intros e He. apply Hsub. by right. }
    exists counts'. cbn [for_of]. rewrite Hstep. cbn [mbind Result_bind]. rewrite Hrun.
    split_and!.
    + f_equal. f_equal. lia.
    + intros [|k] n' c' Hk; simpl in Hk.
      * injection Hk as <- <-. rewrite Hother by done. rewrite lookup_insert_eq.
        change (total_size (take 0 ((n, c) :: entries))) with 0.
        by rewrite Nat.add_0_r.
      * rewrite (Hat k n' c' Hk).
        change (total_size (take (S k) ((n, c) :: entries)))
          with (size c + total_size (take k entries)).
        do 2 f_equal. lia.
    + intros m Hm. apply not_elem_of_cons in Hm as [Hne Hm].
      rewrite Hother by done. by rewrite lookup_insert_ne.
Qed.
End counts.

(** What [compute] tabulates for a population of identical genomes: the
    table of every locus scanned holds the one allele read there, counted
    once per individual and per entry of [start]. *)
Lemma genome_counts_identical (σ : gmap nat (list byte)) (buf : list byte)
    (first : Individual) (rest : list Individual)
    (metadata : list (string * Chromosome)) (g : Genome) :
  NoDup (obj_keys metadata) →
  gn_Genome metadata = Ok g →
  _genome (species first) = g →
  identical_genomes σ buf (first :: rest) →
  ∃ counts,
    GenomeCountStatistics_counts σ (first :: rest) = Ok counts ∧
    ∀ n c start,
      obj_get metadata n = Some c → get_marker_start g n = Some start →
      counts !! n = Some (identical_tables buf (length (first :: rest)) c start).
Proof.
  intros Hnd Hg Hspecies Hsame.
  destruct (genome_starts metadata (genome_nonempty _ _ Hg) Hnd)
    as (g' & Hg' & Hmeta & Horder & Hsize & Hstart & _).
  rewrite Hg in Hg'. injection Hg' as <-.
  destruct (counts_loop σ buf (first :: rest) Hsame metadata Hnd metadata ∅ 0)
    as (counts & Hrun & Hat & _); [done..|].
  exists counts. split.
  - unfold GenomeCountStatistics_counts. cbn [lookup list_lookup deref mbind Result_bind].
    cbv zeta in Hrun |- *. rewrite Hspecies, Hmeta, Horder, Hrun. done.
  - intros n c start Hc Hs.
    destruct (list_elem_of_lookup_1 _ _ (obj_get_Some _ _ _ Hc)) as [k Hk].
    rewrite (Hstart _ _ _ Hk) in Hs. injection Hs as <-.
    by rewrite (Hat k n c Hk).
Qed.

(** C1, as the code has it.  For a non-empty population whose genomes are
    all the same, [GenomeCountStatistics.compute] hands [compute_counts] a
    table per scanned locus.  On a chromosome that is not autosomal the
    table has exactly one key, the allele at that position, and its count
    is the number of individuals.  On an autosomal chromosome every
    individual is tallied twice into the one table of the locus, so the
    counts of the table add up to twice the number of individuals. *)
Theorem genome_count_identical_population
    (compute_counts : gmap string (list (gmap (option Z) nat)) → Result Value)
    (σ : gmap nat (list byte)) (buf : list byte) (gp : gmap string Value) (cyc : Z)
    (first : Individual) (rest : list Individual)
    (metadata : list (string * Chromosome)) (g : Genome) :
  NoDup (obj_keys metadata) →
  gn_Genome metadata = Ok g →
  _genome (species first) = g →
  identical_genomes σ buf (first :: rest) →
  ∃ counts,
    ops_GenomeCountStatistics_compute compute_counts σ gp cyc (first :: rest)
    = compute_counts counts ∧
    ∀ n c start i,
      obj_get metadata n = Some c → get_marker_start g n = Some start →
      i < (scan_plan c).1 →
      ∃ tables table,
        counts !! n = Some tables ∧ tables !! i = Some table ∧
        (is_autosomal c = false →
           table = {[u8_get buf (start + i) := length (first :: rest)]}) ∧
        (is_autosomal c = true → table_total table = 2 * length (first :: rest)).
Proof.
  intros Hnd Hg Hspecies Hsame.
  destruct (genome_counts_identical σ buf first rest metadata g Hnd Hg Hspecies Hsame)
    as (counts & Hrun & Htables).
  exists counts. split.
  - unfold ops_GenomeCountStatistics_compute. by rewrite Hrun.
  - intros n c start i Hc Hs Hi.
    eexists _, _. split; [by apply Htables|]. unfold identical_tables.
    split; [by rewrite list_lookup_fmap, lookup_seq_lt|].
    unfold scan_plan. split; intros Hauto; rewrite Hauto; cbn [snd length].
    + unfold counted. rewrite decide_False by (simpl; lia). f_equal. simpl. lia.
    + rewrite table_total_counted. simpl. lia.
Qed.

Lemma same_genome_twice (g : Genome) :
  identical_genomes {[0 := [x01; x00; x01; x00]; 1 := [x01; x00; x01; x00]]}
    [x01; x00; x01; x00]
    [set_genome (individual_of g) (Some 0); set_genome (individual_of g) (Some 1)].
Proof.
  unfold identical_genomes. repeat constructor.
  - by exists 0.
  - by exists 1.
Qed.

Lemma genome_count_identical_population_example :
  ∃ g counts,
    gn_Genome [("chr"%string, two_loci)] = Ok g ∧
    ops_GenomeCountStatistics_compute (λ counts, Ok (VCounts counts))
      {[0 := [x01; x00; x01; x00]; 1 := [x01; x00; x01; x00]]} ∅ 0
      [set_genome (individual_of g) (Some 0); set_genome (individual_of g) (Some 1)]
    = Ok (VCounts counts) ∧
    ∃ tables, counts !! "chr"%string = Some tables ∧
              tables !! 0 = Some {[Some 1%Z := 2]}.
Proof.
  destruct (genome_starts [("chr"%string, two_loci)])
    as (g & Hg & _ & _ & _ & Hstart & _); [done | compute_done |].
  destruct (genome_count_identical_population (λ counts, Ok (VCounts counts))
              {[0 := [x01; x00; x01; x00]; 1 := [x01; x00; x01; x00]]}
              [x01; x00; x01; x00] ∅ 0
              (set_genome (individual_of g) (Some 0))
              [set_genome (individual_of g) (Some 1)]
              [("chr"%string, two_loci)] g)
    as (counts & Hrun & Htables);
    [compute_done | exact Hg | reflexivity | exact (same_genome_twice g) |].
  exists g, counts. split; [exact Hg|]. split; [exact Hrun|].
  destruct (Htables "chr"%string two_loci 0 0) as (tables & table & Ht & Hi & Hplain & _);
    [reflexivity | exact (Hstart 0 "chr"%string two_loci eq_refl) | vm_compute; lia |].
  exists tables. split; [exact Ht|]. rewrite Hi, (Hplain eq_refl). reflexivity.
Defined.

(** One individual, one SNP on a chromosome pair, both copies carrying
    allele 0: the table of the locus has the single key 0 with count 2,
    while the population has one individual. *)
Lemma genome_count_autosomal_locus :
  ∃ g counts,
    gn_Genome [("unlinked"%string, one_locus_pair)] = Ok g ∧
    identical_genomes {[0 := [x00; x00]]} [x00; x00]
      [set_genome (individual_of g) (Some 0)] ∧
    ops_GenomeCountStatistics_compute (λ counts, Ok (VCounts counts))
      {[0 := [x00; x00]]} ∅ 0 [set_genome (individual_of g) (Some 0)]
    = Ok (VCounts counts) ∧
    is_autosomal one_locus_pair = true ∧
    counts !! "unlinked"%string = Some [{[Some 0%Z := 2]}] ∧
    length [set_genome (individual_of g) (Some 0)] = 1.
Proof.
  eexists _, _. split; [vm_compute; reflexivity|]. split.
  { unfold identical_genomes. repeat constructor. by exists 0. }
  split; [vm_compute; reflexivity|]. split; [done|]. split; [|done].
  vm_compute. reflexivity.
Qed.

(** * Further properties *)

(** ** The getters through a stack of layers *)

Lemma class_size_pow (ls : list Layer) (c : Chromosome) :
  class_size ls c = 2 ^ count_layers doubles_size ls * _size c.
Proof.
  induction ls as [|l ls IH]; [simpl; lia|].
  unfold count_layers in *. destruct l; simpl; rewrite IH; simpl; lia.
Qed.

Lemma class_markers_pow (ls : list Layer) (c : Chromosome) :
  length (class_markers ls c) = 2 ^ count_layers is_Autosome ls * _size c.
Proof.
  induction ls as [|l ls IH]; [simpl; unfold _size; lia|].
  unfold count_layers in *. destruct l; simpl; try rewrite length_app; rewrite IH; simpl; lia.
Qed.

Lemma count_layers_le (ls : list Layer) :
  count_layers is_Autosome ls ≤ count_layers doubles_size ls.
Proof.
  unfold count_layers. induction ls as [|l ls IH]; [done|]. destruct l; simpl; lia.
Qed.

Lemma class_markers_periodic (ls : list Layer) (c : Chromosome) (i : nat) :
  i < length (class_markers ls c) →
  class_markers ls c !! i = _markers c !! (i mod _size c).
Proof.
  revert i. induction ls as [|l ls IH]; intros i Hi.
  - simpl in *. by rewrite Nat.mod_small.
  - destruct l; simpl in *; try (by apply IH).
    rewrite length_app in Hi.
    destruct (decide (i < length (class_markers ls c))) as [Hlt|Hge].
    + rewrite lookup_app_l by done. by apply IH.
    + rewrite lookup_app_r by lia. rewrite IH by lia. f_equal.
      rewrite class_markers_pow.
      destruct (decide (_size c = 0)) as [Hz|Hnz].
      * rewrite Hz. rewrite Nat.mul_0_r, Nat.sub_0_r. done.
      * rewrite <- (Nat.Div0.mod_add (i - 2 ^ count_layers is_Autosome ls * _size c)
                     (2 ^ count_layers is_Autosome ls) (_size c)).
        f_equal. rewrite class_markers_pow in Hge. lia.
Qed.

(** X1. Through any stack of layers, [size] is the base size doubled once
    per Autosome, UnlinkedAutosome, LinkedAutosome or XChromosome layer,
    and [markers] is the base marker list doubled once per Autosome layer
    only; so [markers] is never longer than [size], and its [i]-th entry
    is the base marker at [i] modulo the base size (each copy carries the
    same loci). *)
Theorem layered_size_and_markers (c : Chromosome) :
  size c = 2 ^ count_layers doubles_size (layers c) * length (_markers c) ∧
  length (markers c) = 2 ^ count_layers is_Autosome (layers c) * length (_markers c) ∧
  length (markers c) ≤ size c ∧
  (∀ i, i < length (markers c) →
        markers c !! i = _markers c !! (i mod length (_markers c))).
Proof.
  unfold size, markers. split_and!.
  - apply class_size_pow.
  - apply class_markers_pow.
  - rewrite class_size_pow, class_markers_pow.
    apply Nat.mul_le_mono_r. apply Nat.pow_le_mono_r; [lia|]. apply count_layers_le.
  - intros i Hi. by apply class_markers_periodic.
Qed.

Lemma class_is_autosomal_elem (ls : list Layer) :
  class_is_autosomal ls = true ↔ Autosome ∈ ls.
Proof.
  induction ls as [|l ls IH]; simpl.
  - split; [done|]. intros H. by apply elem_of_nil in H.
  - destruct l;
      try (rewrite IH, elem_of_cons; split; [by right | by intros [?|?]]).
    split; [|done]. intros _. by left.
Qed.

Lemma class_markers_doubled (ls : list Layer) (c : Chromosome) :
  Autosome ∈ ls → ∃ ms, class_markers ls c = ms ++ ms.
Proof.
  induction ls as [|l ls IH]; intros Hin.
  - by apply elem_of_nil in Hin.
  - destruct l; simpl; try (apply IH; apply elem_of_cons in Hin as [|]; done).
    by eexists.
Qed.

(** X2. A chromosome is autosomal exactly when the Autosome layer is
    somewhere in its stack; its [markers] is then a list appended to
    itself and both its marker count and its size are even, so the halves
    taken by the statistics scan and by [reproduce] are exact. *)
Theorem autosomal_iff_autosome_layer (c : Chromosome) :
  (is_autosomal c = true ↔ Autosome ∈ layers c) ∧
  (is_autosomal c = true →
     (∃ ms, markers c = ms ++ ms) ∧
     2 * (length (markers c) / 2) = length (markers c) ∧
     2 * (size c / 2) = size c ∧
     (scan_plan c).1 = length (markers c) / 2) ∧
  (is_autosomal c = false → (scan_plan c).1 = length (markers c)).
Proof.
  unfold is_autosomal. split; [apply class_is_autosomal_elem|]. split.
  - intros Hauto. pose proof (proj1 (class_is_autosomal_elem _) Hauto) as Hin.
    destruct (class_markers_doubled (layers c) c Hin) as [ms Hms].
    split; [by exists ms|]. unfold markers, size. rewrite Hms, length_app.
    split_and!.
    + assert ((length ms + length ms) / 2 = length ms) as ->; [|lia].
      replace (length ms + length ms) with (length ms * 2) by lia. by apply Nat.div_mul.
    + rewrite class_size_pow.
      assert (Hpos : 0 < count_layers doubles_size (layers c)).
      { pose proof (count_layers_le (layers c)).
        assert (0 < count_layers is_Autosome (layers c)); [|lia].
        clear -Hin. unfold count_layers.
        induction (layers c) as [|l ls IH]; [by apply elem_of_nil in Hin|].
        apply elem_of_cons in Hin as [<-|Hin]; simpl; [lia|]. specialize (IH Hin). lia. }
      destruct (count_layers doubles_size (layers c)) as [|k]; [lia|].
      rewrite Nat.pow_succ_r'.
      replace (2 * 2 ^ k * _size c) with (2 ^ k * _size c * 2) by lia.
      rewrite Nat.div_mul by done. lia.
    + unfold scan_plan, is_autosomal, markers. rewrite Hauto, Hms, length_app. done.
  - intros Hplain. unfold scan_plan, is_autosomal. by rewrite Hplain.
Qed.

(** ** Genomes *)



Lemma total_size_take_lt (entries : list (string * Chromosome)) i j n c :
  i < j → entries !! i = Some (n, c) → 0 < size c →
  total_size (take i entries) < total_size (take j entries).
Proof.
  intros Hij Hi Hpos. pose proof (ranges_in_order entries i j n c Hij Hi). lia.
Qed.

(** X4. In a genome built from metadata, [get_marker_start] is defined
    exactly for the chromosome names and is [undefined] for every other
    name; the first name starts at offset 0, and two different chromosomes
    that both have a positive size start at different offsets. *)
Theorem marker_start_defined_for_names (metadata : list (string * Chromosome))
    (g : Genome) :
  NoDup (obj_keys metadata) → gn_Genome metadata = Ok g →
  (∀ n, is_Some (get_marker_start g n) ↔ n ∈ obj_keys metadata) ∧
  (∀ n, n ∉ obj_keys metadata → get_marker_start g n = None) ∧
  (∀ n1 c1 rest, metadata = (n1, c1) :: rest → get_marker_start g n1 = Some 0) ∧
  (∀ n1 c1 n2 c2, n1 ≠ n2 →
     obj_get metadata n1 = Some c1 → obj_get metadata n2 = Some c2 →
     0 < size c1 → 0 < size c2 →
     get_marker_start g n1 ≠ get_marker_start g n2).
Proof.
  intros Hnd Hg.
  destruct (genome_starts metadata (genome_nonempty _ _ Hg) Hnd)
    as (g' & Hg' & _ & _ & _ & Hstart & Hnone).
  rewrite Hg in Hg'. injection Hg' as <-.
  assert (Hfind : ∀ n c, obj_get metadata n = Some c →
                         ∃ k, metadata !! k = Some (n, c)).
  { intros n c H. apply list_elem_of_lookup_1. by apply obj_get_Some. }
  split_and!.
  - intros n. split.
    + intros Hsome. destruct (decide (n ∈ obj_keys metadata)) as [|Hnot]; [done|].
      rewrite (Hnone n Hnot) in Hsome. by destruct Hsome.
    + intros Hin. destruct (obj_get_key metadata n Hin) as [c Hc].
      destruct (Hfind n c Hc) as [k Hk]. rewrite (Hstart k n c Hk). eauto.
  - done.
  - intros n1 c1 rest ->. by apply (Hstart 0 n1 c1).
  - intros n1 c1 n2 c2 Hne Hc1 Hc2 Hp1 Hp2.
    destruct (Hfind n1 c1 Hc1) as [k1 Hk1], (Hfind n2 c2 Hc2) as [k2 Hk2].
    rewrite (Hstart _ _ _ Hk1), (Hstart _ _ _ Hk2). intros [= Heq].
    destruct (Nat.lt_trichotomy k1 k2) as [Hlt|[->|Hgt]].
    + pose proof (total_size_take_lt metadata k1 k2 n1 c1 Hlt Hk1 Hp1). lia.
    + rewrite Hk1 in Hk2. by injection Hk2.
    + pose proof (total_size_take_lt metadata k2 k1 n2 c2 Hgt Hk2 Hp2). lia.
Qed.

Lemma marker_start_defined_for_names_example :
  ∃ g, gn_Genome [("chr"%string, two_loci); ("unlinked"%string, two_loci_pair)] = Ok g ∧
       get_marker_start g "chr"%string = Some 0 ∧
       get_marker_start g "mito"%string = None.
Proof.
  destruct (genome_built [("chr"%string, two_loci); ("unlinked"%string, two_loci_pair)])
    as (g & Hg & _); [done|].
  destruct (marker_start_defined_for_names
              [("chr"%string, two_loci); ("unlinked"%string, two_loci_pair)] g)
    as (_ & Hnone & Hfirst & _); [compute_done | exact Hg |].
  exists g. split; [exact Hg|]. split; [by eapply Hfirst|].
  apply Hnone. compute_done.
Defined.

(** ** The genome builder, for any chooser *)

Lemma fill_features_frame {St} (func : list Z → St → option Z * St)
    (features : list Marker) (position i : nat) (data : list byte) (s : St) :
  ∃ data' s',
    fill_features func features position i data s = (data', s') ∧
    length data' = length data ∧
    (∀ p, p < position + i ∨ position + i + length features ≤ p →
          data' !! p = data !! p).
Proof.
  revert i data s. induction features as [|m features IH]; intros i data s.
  - by exists data, s.
  - cbn [fill_features]. destruct (func (possible_values m) s) as [v s1].
    destruct (IH (S i) (u8_set data (position + i) v) s1)
      as (data' & s' & Hrun & Hlen & Hout).
    exists data', s'. unfold u8_set in *. rewrite length_insert in Hlen.
    split_and!; [done..|].
    intros p Hp. simpl in Hp. rewrite Hout by lia. apply list_lookup_insert_ne. lia.
Qed.

Section builder_frame.
Context {St : Type} (func : list Z → St → option Z * St).
Context (metadata : list (string * Chromosome)) (Hnd : NoDup (obj_keys metadata)).

Let body : string → list byte * nat * St → Result (list byte * nat * St) :=
  λ marker_name '(genome_data, position, s),
    marker ← deref (obj_get metadata marker_name);
    let features := markers marker in
    let '(genome_data', s') :=
      fill_features func features position 0 genome_data s in
    Ok (genome_data', position + size marker, s').

(** The outer loop never throws on entries of the object, keeps the
    length of the buffer, and stores only inside the marker ranges of the
    chromosomes it visits. *)
Lemma build_loop_frame (entries : list (string * Chromosome)) (data : list byte)
    (position : nat) (s : St) :
  (∀ e, e ∈ entries → e ∈ metadata) →
  ∃ data' s',
    for_of (obj_keys entries) body (data, position, s)
    = Ok (data', position + total_size entries, s') ∧
    length data' = length data ∧
    (∀ p, (∀ j n c, entries !! j = Some (n, c) →
             ¬ (position + total_size (take j entries) ≤ p
                < position + total_size (take j entries) + length (markers c))) →
          data' !! p = data !! p).
Proof.
  revert data position s.
  induction entries as [|[n c] entries IH]; intros data position s Hsub.
  - exists data, s. simpl. rewrite Nat.add_0_r. by split_and!.
  - change (total_size ((n, c) :: entries)) with (size c + total_size entries) in *.
    destruct (fill_features_frame func (markers c) position 0 data s)
      as (data1 & s1 & Hfill & Hlen1 & Hout1).
    assert (Hstep : body n (data, position, s) = Ok (data1, position + size c, s1)).
    { unfold body. rewrite (obj_get_entry metadata n c Hnd) by (apply Hsub; by left).
      simpl. by rewrite Hfill. }
    destruct (IH data1 (position + size c) s1) as (data' & s' & Hrun & Hlen' & Hkeep).
    { intros e He. apply Hsub. by right. }
    change (obj_keys ((n, c) :: entries)) with (n :: obj_keys entries).
    cbn [for_of]. rewrite Hstep. cbn [mbind Result_bind].
    exists data', s'. rewrite Hrun. split_and!.
    + f_equal. f_equal. f_equal. lia.
    + lia.
    + intros p Hp. rewrite Hkeep.
      * apply Hout1. specialize (Hp 0 n c eq_refl).
        change (total_size (take 0 ((n, c) :: entries))) with 0 in Hp. lia.
      * intros j n' c' Hj. specialize (Hp (S j) n' c' Hj).
        change (total_size (take (S j) ((n, c) :: entries)))
          with (size c + total_size (take j entries)) in Hp. lia.
Qed.
End builder_frame.

(** X5. For a genome built by the constructor and any allele chooser,
    [create_simple_genome] succeeds; the individual gets a new buffer of
    length [genome.size] at a location that held nothing, and every
    buffer that existed is left as it was.  Only positions inside the
    [markers] of a chromosome are ever stored to: every other position of
    the new buffer keeps the 0 it was created with. *)
Theorem simple_genome_fresh_buffer {St} (func : list Z → St → option Z * St) (s : St)
    (σ : gmap nat (list byte)) (individual : Individual)
    (metadata : list (string * Chromosome)) (g : Genome) :
  NoDup (obj_keys metadata) →
  gn_Genome metadata = Ok g →
  _genome (species individual) = g →
  ∃ l buf s',
    integrated_create_simple_genome σ individual func s
    = Ok (<[l := buf]> σ, set_genome individual (Some l), s') ∧
    σ !! l = None ∧
    length buf = Genome_size g ∧
    (∀ p, p < Genome_size g →
       (∀ n c start, obj_get metadata n = Some c → get_marker_start g n = Some start →
                     ¬ (start ≤ p < start + length (markers c))) →
       buf !! p = Some "000"%byte).
Proof.
  intros Hnd Hg Hspecies.
  destruct (genome_starts metadata (genome_nonempty _ _ Hg) Hnd)
    as (g' & Hg' & Hmeta & Horder & Hsize & Hstart & _).
  rewrite Hg in Hg'. injection Hg' as <-.
  destruct (build_loop_frame func metadata Hnd metadata
              (replicate (Genome_size g) "000"%byte) 0 s)
    as (buf & s' & Hrun & Hlen & Hkeep); [done|].
  rewrite length_replicate in Hlen.
  exists (fresh (dom σ)), buf, s'. split_and!.
  - unfold integrated_create_simple_genome.
    cbv zeta in Hrun |- *. by rewrite Hspecies, Hmeta, Horder, Hrun.
  - apply not_elem_of_dom. apply is_fresh.
  - done.
  - intros p Hp Hout. rewrite Hkeep; [by apply lookup_replicate_2|].
    intros j n c Hj. simpl.
    apply (Hout n c (total_size (take j metadata))).
    + apply obj_get_entry; [done|]. by eapply list_elem_of_lookup_2.
    + by eapply Hstart.
Qed.

Lemma simple_genome_fresh_buffer_example :
  ∃ g l buf s',
    gn_Genome x_linked_metadata = Ok g ∧
    integrated_create_simple_genome ∅ (individual_of g) test_chooser 7%Z
    = Ok (<[l := buf]> ∅, set_genome (individual_of g) (Some l), s') ∧
    length buf = Genome_size g.
Proof.
  destruct (genome_built x_linked_metadata) as (g & Hg & _); [done|].
  destruct (simple_genome_fresh_buffer test_chooser 7%Z ∅ (individual_of g)
              x_linked_metadata g)
    as (l & buf & s' & Hrun & _ & Hlen & _); [compute_done | exact Hg | reflexivity |].
  exists g, l, buf, s'. split_and!; [exact Hg | exact Hrun | exact Hlen].
Defined.

(** ** The zero and test choosers *)

Lemma fill_features_zero (features : list Marker) (position i n : nat) (u : unit) :
  fill_features zero_chooser features position i (replicate n "000"%byte) u
  = (replicate n "000"%byte, u).
Proof.
  revert i. induction features as [|m features IH]; intros i; [done|].
  cbn [fill_features zero_chooser]. unfold u8_set.
  change (ToUint8 (Some 0%Z)) with "000"%byte.
  destruct (decide (position + i < n)) as [Hlt|Hge].
  - rewrite list_insert_id by (by apply lookup_replicate_2). apply IH.
  - rewrite list_insert_ge by (rewrite length_replicate; lia). apply IH.
Qed.

(** X6. With the zero chooser, [create_simple_genome] on a genome built
    by the constructor (whatever its layers) yields a buffer of
    [genome.size] bytes that are all 0. *)
Theorem zero_genome_all_zero (σ : gmap nat (list byte)) (individual : Individual)
    (metadata : list (string * Chromosome)) (g : Genome) :
  gn_Genome metadata = Ok g →
  _genome (species individual) = g →
  ∃ l,
    integrated_create_zero_genome σ individual
    = Ok (<[l := replicate (Genome_size g) "000"%byte]> σ,
          set_genome individual (Some l), ()) ∧
    σ !! l = None.
Proof.
  intros Hg Hspecies.
  destruct (genome_built metadata (genome_nonempty _ _ Hg)) as (g' & Hg' & Hmeta & Horder).
  rewrite Hg in Hg'. injection Hg' as <-.
  exists (fresh (dom σ)). split; [|apply not_elem_of_dom, is_fresh].
  unfold integrated_create_zero_genome, integrated_create_simple_genome.
  cbv zeta. rewrite Hspecies, Hmeta, Horder.
  assert (Hloop : ∀ names position,
    (∀ n, n ∈ names → n ∈ obj_keys metadata) →
    ∃ position',
      for_of names
        (λ marker_name '(genome_data, position, s),
           marker ← deref (obj_get metadata marker_name);
           let '(genome_data', s') :=
             fill_features zero_chooser (markers marker) position 0 genome_data s in
           Ok (genome_data', position + size marker, s'))
        (replicate (Genome_size g) "000"%byte, position, ())
      = Ok (replicate (Genome_size g) "000"%byte, position', ())).
  { induction names as [|n names IH]; intros position Hkeys; [by eexists|].
    destruct (obj_get_key metadata n) as [c Hc]; [apply Hkeys; by left|].
    cbn [for_of]. rewrite Hc. cbn [deref mbind Result_bind].
    rewrite fill_features_zero. apply IH. intros m Hm. apply Hkeys. by right. }
  destruct (Hloop (obj_keys metadata) 0) as [position' Hrun]; [done|].
  by rewrite Hrun.
Qed.

Lemma zero_genome_all_zero_example :
  ∃ g l,
    gn_Genome x_linked_metadata = Ok g ∧
    integrated_create_zero_genome ∅ (individual_of g)
    = Ok (<[l := replicate (Genome_size g) "000"%byte]> ∅,
          set_genome (individual_of g) (Some l), ()).
Proof.
  destruct (genome_built x_linked_metadata) as (g & Hg & _); [done|].
  destruct (zero_genome_all_zero ∅ (individual_of g) x_linked_metadata g)
    as (l & Hrun & _); [exact Hg | reflexivity |].
  exists g, l. split; [exact Hg | exact Hrun].
Defined.

Lemma byte_to_Z_wrap (z : Z) : byte_to_Z (ToUint8 (Some z)) = (z mod 256)%Z.
Proof.
  assert (ToUint8 (Some z) = ToUint8 (Some (z mod 256)%Z)) as ->.
  { unfold ToUint8. by rewrite Z.mod_mod. }
  apply byte_to_Z_ToUint8. unfold uint8. by apply Z.mod_pos_bound.
Qed.

Lemma fill_features_test (features : list Marker) (position i : nat)
    (data : list byte) (v : Z) :
  position + i + length features ≤ length data →
  ∃ data',
    fill_features test_chooser features position i data v
    = (data', (v + Z.of_nat (length features))%Z) ∧
    length data' = length data ∧
    (∀ p, p < position + i ∨ position + i + length features ≤ p →
          data' !! p = data !! p) ∧
    (∀ j, j < length features →
          data' !! (position + i + j) = Some (ToUint8 (Some (v + Z.of_nat j)%Z))).
Proof.
  revert i data v. induction features as [|m features IH]; intros i data v Hlen.
  - exists data. simpl. rewrite Z.add_0_r. split_and!; [done..|]. intros j Hj. lia.
  - cbn [fill_features test_chooser]. simpl in Hlen.
    destruct (IH (S i) (u8_set data (position + i) (Some v)) (v + 1)%Z)
      as (data' & Hrun & Hlen' & Hout & Hins).
    { unfold u8_set. rewrite length_insert. lia. }
    exists data'. unfold u8_set in *. rewrite length_insert in Hlen'. split_and!.
    + rewrite Hrun. f_equal. simpl. lia.
    + done.
    + intros p Hp. simpl in Hp. rewrite Hout by lia. apply list_lookup_insert_ne. lia.
    + intros [|j] Hj; simpl in Hj.
      * rewrite Nat.add_0_r, Z.add_0_r, Hout by lia. apply list_lookup_insert_eq. lia.
      * replace (position + i + S j) with (position + S i + j) by lia.
        rewrite Hins by lia. do 3 f_equal. lia.
Qed.

Section test_builder.
Context (metadata : list (string * Chromosome)) (Hnd : NoDup (obj_keys metadata)).

Let body : string → list byte * nat * Z → Result (list byte * nat * Z) :=
  λ marker_name '(genome_data, position, s),
    marker ← deref (obj_get metadata marker_name);
    let features := markers marker in
    let '(genome_data', s') :=
      fill_features test_chooser features position 0 genome_data s in
    Ok (genome_data', position + size marker, s').

Lemma test_loop (entries : list (string * Chromosome)) (data : list byte)
    (position : nat) (v : Z) :
  (∀ e, e ∈ entries → e ∈ metadata) →
  (∀ n c, (n, c) ∈ entries → length (markers c) = size c) →
  position + total_size entries ≤ length data →
  ∃ data',
    for_of (obj_keys entries) body (data, position, v)
    = Ok (data', position + total_size entries,
          (v + Z.of_nat (total_size entries))%Z) ∧
    length data' = length data ∧
    (∀ p, p < position → data' !! p = data !! p) ∧
    (∀ q, q < total_size entries →
          data' !! (position + q) = Some (ToUint8 (Some (v + Z.of_nat q)%Z))).
Proof.
  revert data position v.
  induction entries as [|[n c] entries IH]; intros data position v Hsub Hcover Hlen.
  - exists data. simpl. rewrite Nat.add_0_r, Z.add_0_r. split_and!; [done..|].
    intros q Hq. unfold total_size in Hq. simpl in Hq. lia.
  - change (total_size ((n, c) :: entries)) with (size c + total_size entries) in *.
    pose proof (Hcover n c ltac:(by left)) as Hc.
    destruct (fill_features_test (markers c) position 0 data v)
      as (data1 & Hfill & Hlen1 & Hout1 & Hin1); [lia|].
    assert (Hstep : body n (data, position, v)
                    = Ok (data1, position + size c, (v + Z.of_nat (size c))%Z)).
    { unfold body. rewrite (obj_get_entry metadata n c Hnd) by (apply Hsub; by left).
      simpl. by rewrite Hfill, Hc. }
    destruct (IH data1 (position + size c) (v + Z.of_nat (size c))%Z)
      as (data' & Hrun & Hlen' & Hkeep & Hins).
    { intros e He. apply Hsub. by right. }
    { intros n' c' H'. apply (Hcover n'). by right. }
    { lia. }
    change (obj_keys ((n, c) :: entries)) with (n :: obj_keys entries).
    cbn [for_of]. rewrite Hstep. cbn [mbind Result_bind].
    exists data'. rewrite Hrun. split_and!.
    + f_equal. f_equal; [f_equal|]; lia.
    + lia.
    + intros p Hp. rewrite Hkeep by lia. apply Hout1. lia.
    + intros q Hq. destruct (decide (q < size c)) as [Hlt|Hge].
      * rewrite Hkeep by lia. specialize (Hin1 q). rewrite Nat.add_0_r in Hin1.
        apply Hin1. lia.
      * replace (position + q) with (position + size c + (q - size c)) by lia.
        rewrite Hins by lia. do 3 f_equal. lia.
Qed.
End test_builder.

(** X7. With the test chooser started at counter value [v], on a genome
    whose chromosomes have as many markers as their size, the byte at
    position [p] of the new buffer is [v + p] wrapped into a byte: the
    counter values appear in position order, and the counter ends at
    [v + genome.size]. *)
Theorem test_genome_counts_positions (σ : gmap nat (list byte)) (individual : Individual)
    (v : Z) (metadata : list (string * Chromosome)) (g : Genome) :
  NoDup (obj_keys metadata) →
  gn_Genome metadata = Ok g →
  _genome (species individual) = g →
  (∀ n c, (n, c) ∈ metadata → length (markers c) = size c) →
  ∃ l buf,
    integrated_create_test_genome σ individual v
    = Ok (<[l := buf]> σ, set_genome individual (Some l),
          (v + Z.of_nat (Genome_size g))%Z) ∧
    length buf = Genome_size g ∧
    (∀ p b, buf !! p = Some b → byte_to_Z b = ((v + Z.of_nat p) mod 256)%Z).
Proof.
  intros Hnd Hg Hspecies Hcover.
  destruct (genome_starts metadata (genome_nonempty _ _ Hg) Hnd)
    as (g' & Hg' & Hmeta & Horder & Hsize & _).
  rewrite Hg in Hg'. injection Hg' as <-.
  destruct (test_loop metadata Hnd metadata (replicate (Genome_size g) "000"%byte) 0 v)
    as (buf & Hrun & Hlen & _ & Hins); [done | done | rewrite length_replicate; lia |].
  rewrite length_replicate in Hlen.
  exists (fresh (dom σ)), buf. split_and!.
  - unfold integrated_create_test_genome, integrated_create_simple_genome.
    cbv zeta in Hrun |- *. rewrite Hspecies, Hmeta, Horder, Hrun.
    cbn [mbind Result_bind]. by rewrite Hsize.
  - done.
  - intros p b Hb. pose proof (lookup_lt_Some _ _ _ Hb) as Hp.
    specialize (Hins p). simpl in Hins. rewrite Hins in Hb by lia.
    injection Hb as <-. apply byte_to_Z_wrap.
Qed.

Lemma test_genome_counts_positions_example :
  ∃ g l buf,
    gn_Genome [("unlinked"%string, two_loci_pair)] = Ok g ∧
    integrated_create_test_genome ∅ (individual_of g) 254
    = Ok (<[l := buf]> ∅, set_genome (individual_of g) (Some l),
          (254 + Z.of_nat (Genome_size g))%Z) ∧
    length buf = Genome_size g.
Proof.
  destruct (genome_built [("unlinked"%string, two_loci_pair)]) as (g & Hg & _); [done|].
  destruct (test_genome_counts_positions ∅ (individual_of g) 254
              [("unlinked"%string, two_loci_pair)] g)
    as (l & buf & Hrun & Hlen & _); [compute_done | exact Hg | reflexivity | |].
  { intros n c H. by apply (two_loci_pair_usable n c). }
  exists g, l, buf. split_and!; [exact Hg | exact Hrun | exact Hlen].
Defined.

(** ** The haploid copy at its edges *)

Section haploid_edges.
Context (individual : Individual) (parent : option Individual).
Context (ofs_position parent_position : nat).

Let body : nat → gmap nat (list byte) → Result (gmap nat (list byte)) :=
  λ i σ,
    il ← deref (genome individual);
    ibuf ← deref (σ !! il);
    p ← deref parent;
    pl ← deref (genome p);
    pbuf ← deref (σ !! pl);
    Ok (<[il := u8_set ibuf (ofs_position + i) (u8_get pbuf (parent_position + i))]> σ).

(** One iteration that returns has found both genomes and has stored one
    byte into the individual's buffer. *)
Lemma reproduce_step_inv (i : nat) (σ σ1 : gmap nat (list byte)) :
  body i σ = Ok σ1 →
  ∃ il ibuf v,
    genome individual = Some il ∧ σ !! il = Some ibuf ∧
    σ1 = <[il := u8_set ibuf (ofs_position + i) v]> σ.
Proof.
  unfold body. intros H.
  destruct (genome individual) as [il|]; [|done]. simpl in H.
  destruct (σ !! il) as [ibuf|] eqn:Eib; [|done]. simpl in H.
  destruct parent as [p|]; [|done]. simpl in H.
  destruct (genome p) as [pl|]; [|done]. simpl in H.
  destruct (σ !! pl) as [pbuf|]; [|done]. simpl in H.
  injection H as <-. by eexists _, _, _.
Qed.


Lemma reproduce_loop_frame (n i : nat) (σ σ' : gmap nat (list byte)) :
  for_loop n i body σ = Ok σ' →
  (∀ l, genome individual ≠ Some l → σ' !! l = σ !! l) ∧
  (∀ il, genome individual = Some il →
     length <$> σ' !! il = length <$> σ !! il ∧
     ∀ k, k < ofs_position + i ∨ ofs_position + i + n ≤ k →
          σ' !! il ≫= (.!! k) = σ !! il ≫= (.!! k)).
Proof.
  revert i σ. induction n as [|n IH]; intros i σ Hrun.
  - injection Hrun as <-. by split.
  - cbn [for_loop] in Hrun. apply bind_Ok in Hrun as (σ1 & Hstep & Hrest).
    destruct (reproduce_step_inv i σ σ1 Hstep) as (il & ibuf & v & Hil & Hib & ->).
    destruct (IH _ _ Hrest) as [Hother Hself]. split.
    + intros l Hl. rewrite Hother by done. apply lookup_insert_ne. congruence.
    + intros il' Hil'. assert (il' = il) as -> by congruence.
      destruct (Hself il Hil) as [Hlen Hout]. rewrite lookup_insert_eq in Hlen, Hout.
      split.
      * rewrite Hlen, Hib. simpl. unfold u8_set. by rewrite length_insert.
      * intros k Hk. rewrite Hout by lia. rewrite Hib. simpl. unfold u8_set.
        apply list_lookup_insert_ne. lia.
Qed.


Lemma reproduce_loop_defined (n i : nat) (σ : gmap nat (list byte))
    (p : Individual) (il pl : nat) :
  parent = Some p → genome individual = Some il → genome p = Some pl →
  is_Some (σ !! il) → is_Some (σ !! pl) →
  ∃ σ', for_loop n i body σ = Ok σ'.
Proof.
  intros Hp Hil Hpl. revert i σ.
  induction n as [|n IH]; intros i σ [ibuf Hib] [pbuf Hpb]; [by eexists|].
  assert (Hstep : body i σ
                  = Ok (<[il := u8_set ibuf (ofs_position + i)
                                  (u8_get pbuf (parent_position + i))]> σ)).
  { unfold body. rewrite Hil, Hp. simpl. rewrite Hib. simpl.
    rewrite Hpl. simpl. by rewrite Hpb. }
  cbn [for_loop]. rewrite Hstep. cbn [mbind Result_bind]. apply IH.
  - rewrite lookup_insert_eq. eauto.
  - destruct (decide (il = pl)) as [->|Hne];
      [rewrite lookup_insert_eq | rewrite lookup_insert_ne by done]; eauto.
Qed.
End haploid_edges.

(** X8. Whatever the arguments (shared buffers, ranges that run past a
    buffer), a call of the base [reproduce] that returns has changed no
    buffer but the individual's genome, has kept the length of that
    buffer, and has left its bytes outside
    [ofs_position, ofs_position + size) as they were. *)
Theorem reproduce_touches_only_range (c : Chromosome) (σ σ' : gmap nat (list byte))
    (individual : Individual) (parent : option Individual)
    (ofs_position parent_position : nat) :
  gn_Chromosome_reproduce c σ individual parent ofs_position parent_position = Ok σ' →
  (∀ l, genome individual ≠ Some l → σ' !! l = σ !! l) ∧
  (∀ il, genome individual = Some il →
     length <$> σ' !! il = length <$> σ !! il ∧
     ∀ k, k < ofs_position ∨ ofs_position + _size c ≤ k →
          σ' !! il ≫= (.!! k) = σ !! il ≫= (.!! k)).
Proof.
  unfold gn_Chromosome_reproduce. intros Hrun.
  destruct (reproduce_loop_frame individual parent ofs_position parent_position
              (_size c) 0 σ σ' Hrun) as [Hother Hself].
  split; [done|]. intros il Hil. destruct (Hself il Hil) as [Hlen Hout].
  split; [done|]. intros k Hk. apply Hout. lia.
Qed.

Lemma reproduce_touches_only_range_example :
  ({[0 := [x01; x01; x01]]} : gmap nat (list byte)) !! 0 ≫= (.!! 0)
  = ({[0 := [x01; x02; x03]]} : gmap nat (list byte)) !! 0 ≫= (.!! 0).
Proof.
  destruct (reproduce_touches_only_range two_loci {[0 := [x01; x02; x03]]}
              {[0 := [x01; x01; x01]]} (individual_at 0) (Some (individual_at 0)) 1 0)
    as [_ Hself]; [vm_compute; reflexivity|].
  destruct (Hself 0 eq_refl) as [_ Hout]. apply Hout. left. lia.
Defined.


(** X9. The base [reproduce] on a chromosome without markers does
    nothing, whatever it is given.  On a chromosome with markers it
    throws a [TypeError] when the individual has no genome buffer (as a
    basic individual has none), or the parent is [undefined] or has no
    genome; with both genomes present it never throws, whatever the
    offsets. *)
Theorem reproduce_throws_without_genomes (c : Chromosome) (σ : gmap nat (list byte))
    (individual : Individual) (parent : option Individual)
    (ofs_position parent_position : nat) :
  (_size c = 0 →
     gn_Chromosome_reproduce c σ individual parent ofs_position parent_position = Ok σ) ∧
  (0 < _size c →
     genome individual = None ∨ parent = None ∨
       (∃ p, parent = Some p ∧ genome p = None) →
     ∃ msg, gn_Chromosome_reproduce c σ individual parent ofs_position parent_position
            = Throw (TypeError msg)) ∧
  (∀ p il pl,
     parent = Some p → genome individual = Some il → genome p = Some pl →
     is_Some (σ !! il) → is_Some (σ !! pl) →
     ∃ σ', gn_Chromosome_reproduce c σ individual parent ofs_position parent_position
           = Ok σ').
Proof.
  unfold gn_Chromosome_reproduce. split_and!.
  - by intros ->.
  - intros Hpos Hmissing. destruct (_size c) as [|n]; [lia|]. cbn [for_loop].
    unfold deref.
    destruct (genome individual) as [il|]; simpl; [|by eexists].
    destruct (σ !! il) as [ibuf|]; simpl; [|by eexists].
    destruct parent as [p|]; simpl; [|by eexists].
    destruct (genome p) as [pl|] eqn:Epl; simpl; [|by eexists].
    destruct Hmissing as [H|[H|(p' & [= <-] & H)]]; [done..|]. congruence.
  - intros p il pl Hp Hil Hpl Hib Hpb. by eapply reproduce_loop_defined.
Qed.



(** X11. When individual and parent have different genome buffers, the
    base [reproduce] returns; the individual's buffer keeps its length
    (a store past its end is dropped), and each position of the range
    that exists in it holds the parent's byte at the matching position,
    or 0 where the parent's buffer has no such position. *)
Theorem reproduce_past_the_buffers (c : Chromosome) (σ : gmap nat (list byte))
    (individual parent : Individual) (il pl : nat) (ib pb : list byte)
    (ofs_position parent_position : nat) :
  genome individual = Some il → genome parent = Some pl →
  σ !! il = Some ib → σ !! pl = Some pb →
  il ≠ pl →
  ∃ ib',
    gn_Chromosome_reproduce c σ individual (Some parent) ofs_position parent_position
    = Ok (<[il := ib']> σ) ∧
    length ib' = length ib ∧
    (∀ j, j < _size c → ofs_position + j < length ib →
          ib' !! (ofs_position + j)
          = Some (default "000"%byte (pb !! (parent_position + j)))).
Proof.
  intros Hil Hpl Hib Hpb Hne.
  exists (copied (_size c) 0 pb ib parent_position ofs_position). split_and!.
  - by eapply reproduce_copied; eauto.
  - apply copied_length.
  - intros j Hj Hin. rewrite copied_inside by (done || lia). f_equal.
    unfold u8_get. destruct (pb !! (parent_position + j)) as [b|]; simpl; [|done].
    apply (ToUint8_byte b).
Qed.

Lemma reproduce_past_the_buffers_example :
  ∃ ib',
    gn_Chromosome_reproduce two_loci {[0 := [x01; x02; x03]; 1 := [x07; x08; x09]]}
      (individual_at 0) (Some (individual_at 1)) 1 2
    = Ok (<[0 := ib']> {[0 := [x01; x02; x03]; 1 := [x07; x08; x09]]}) ∧
    ib' !! 1 = Some x09 ∧ ib' !! 2 = Some x00.
Proof.
  destruct (reproduce_past_the_buffers two_loci
              {[0 := [x01; x02; x03]; 1 := [x07; x08; x09]]}
              (individual_at 0) (individual_at 1) 0 1 [x01; x02; x03] [x07; x08; x09] 1 2)
    as (ib' & Hrun & _ & Hin); [reflexivity | reflexivity | reflexivity | reflexivity | lia |].
  exists ib'. split; [exact Hrun|]. split.
  - apply (Hin 0); vm_compute; lia.
  - apply (Hin 1); vm_compute; lia.
Defined.

(** ** Allele counts of any population *)

Lemma count_allele_lookup (a b : option Z) (fc : gmap (option Z) nat) :
  count_allele a fc !! b
  = if decide (a = b) then Some (default 0 (fc !! a) + 1) else fc !! b.
Proof.
  unfold count_allele. case_decide as Hab.
  - subst b. destruct (fc !! a) as [n|]; by rewrite lookup_insert_eq.
  - destruct (fc !! a) as [n|]; by rewrite lookup_insert_ne.
Qed.

Lemma occurrences_cons (a x : option Z) (alleles : list (option Z)) :
  occurrences a (x :: alleles)
  = (if decide (x = a) then 1 else 0) + occurrences a alleles.
Proof.
  unfold occurrences. case_decide.
  - by rewrite filter_cons_True.
  - by rewrite filter_cons_False.
Qed.

(** Tallying a list of alleles into a table whose counts are positive. *)
Lemma tally_lookup (alleles : list (option Z)) (fc : gmap (option Z) nat) (b : option Z) :
  (∀ k n, fc !! k = Some n → 0 < n) →
  default 0 (foldl (λ fc a, count_allele a fc) fc alleles !! b)
  = default 0 (fc !! b) + occurrences b alleles ∧
  (∀ k n, foldl (λ fc a, count_allele a fc) fc alleles !! k = Some n → 0 < n).
Proof.
  revert fc. induction alleles as [|x alleles IH]; intros fc Hpos.
  - simpl. unfold occurrences. simpl. split; [lia|done].
  - cbn [foldl]. destruct (IH (count_allele x fc)) as [Hsum Hpos'].
    { intros k n. rewrite count_allele_lookup. case_decide; [|by apply Hpos].
      intros [= <-]. lia. }
    split; [|done]. rewrite Hsum, count_allele_lookup, occurrences_cons.
    case_decide; [subst x; simpl|]; lia.
Qed.

Section any_population.
Context (σ : gmap nat (list byte)) (inds : list Individual).

(** One pass over a population whose members all have a genome. *)
Lemma tally_pass_any (position i : nat) (fc : gmap (option Z) nat) :
  Forall (λ individual, is_Some (genome_bytes σ individual)) inds →
  for_of inds
    (λ individual feature_counts,
       l ← deref (genome individual);
       buf ← deref (σ !! l);
       let allele := u8_get buf (position + i) in
       Ok (count_allele allele feature_counts))
    fc
  = Ok (foldl (λ fc a, count_allele a fc) fc (allele_at σ (position + i) <$> inds)).
Proof.
  intros Hall. revert fc. induction Hall as [|ind inds' [buf Hbuf] _ IH]; intros fc.
  - done.
  - unfold genome_bytes in Hbuf. destruct (genome ind) as [l|] eqn:El; [|done].
    simpl in Hbuf.
    assert (Ha : allele_at σ (position + i) ind = u8_get buf (position + i)).
    { unfold allele_at, genome_bytes. rewrite El. simpl. by rewrite Hbuf. }
    rewrite fmap_cons. cbn [for_of foldl]. rewrite Ha, El. simpl. rewrite Hbuf. simpl.
    apply IH.
Qed.

(** One pass over a population with a member that has no genome. *)
Lemma tally_pass_throws (position i : nat) (fc : gmap (option Z) nat) :
  Exists (λ individual, genome_bytes σ individual = None) inds →
  ∃ msg,
    for_of inds
      (λ individual feature_counts,
         l ← deref (genome individual);
         buf ← deref (σ !! l);
         let allele := u8_get buf (position + i) in
         Ok (count_allele allele feature_counts))
      fc
    = Throw (TypeError msg).
Proof.
  revert fc. induction inds as [|ind inds' IH]; intros fc Hex.
  - by apply Exists_nil in Hex.
  - cbn [for_of]. unfold deref.
    destruct (genome_bytes σ ind) as [buf|] eqn:Hbuf.
    + assert (Hlater : Exists (λ individual, genome_bytes σ individual = None) inds').
      { apply Exists_cons in Hex as [Hhere|Hlater]; [congruence|done]. }
      unfold genome_bytes in Hbuf.
      destruct (genome ind) as [l|]; [|done]. simpl in Hbuf. simpl. rewrite Hbuf. simpl.
      by apply IH.
    + unfold genome_bytes in Hbuf.
      destruct (genome ind) as [l|]; simpl in *; [rewrite Hbuf; simpl|]; by eexists.
Qed.

Lemma feature_table_any (start : list nat) (position i : nat) :
  Forall (λ individual, is_Some (genome_bytes σ individual)) inds →
  ∃ table,
    feature_table σ inds start position i = Ok table ∧
    (∀ k n, table !! k = Some n → 0 < n) ∧
    (∀ a, default 0 (table !! a)
          = length start * occurrences a (allele_at σ (position + i) <$> inds)).
Proof.
  intros Hall. unfold feature_table.
  assert (Hgen : ∀ fc, (∀ k n, fc !! k = Some n → 0 < n) →
    ∃ table,
      for_of start
        (λ my_start feature_counts,
           for_of inds
             (λ individual feature_counts,
                l ← deref (genome individual);
                buf ← deref (σ !! l);
                let allele := u8_get buf (position + i) in
                Ok (count_allele allele feature_counts))
             feature_counts)
        fc
      = Ok table ∧
      (∀ k n, table !! k = Some n → 0 < n) ∧
      (∀ a, default 0 (table !! a)
            = default 0 (fc !! a)
              + length start * occurrences a (allele_at σ (position + i) <$> inds))).
  { induction start as [|my_start start IH]; intros fc Hpos.
    - exists fc. split_and!; [done..|]. intros a. simpl. lia.
    - cbn [for_of]. rewrite tally_pass_any by done. cbn [mbind Result_bind].
      set (alleles := allele_at σ (position + i) <$> inds).
      destruct (IH (foldl (λ fc a, count_allele a fc) fc alleles))
        as (table & Hrun & Hpos' & Hsum).
      { intros k n. by apply (tally_lookup alleles fc k Hpos). }
      exists table. split_and!; [done..|]. intros a. rewrite Hsum.
      destruct (tally_lookup alleles fc a Hpos) as [-> _]. subst alleles.
      cbn [length]. lia. }
  destruct (Hgen ∅) as (table & Hrun & Hpos & Hsum).
  { intros k n. by rewrite lookup_empty. }
  exists table. split_and!; [done..|]. intros a. rewrite Hsum, lookup_empty. simpl. lia.
Qed.

Lemma feature_table_throws (start : list nat) (position i : nat) :
  start ≠ [] →
  Exists (λ individual, genome_bytes σ individual = None) inds →
  ∃ msg, feature_table σ inds start position i = Throw (TypeError msg).
Proof.
  intros Hne Hex. unfold feature_table. destruct start as [|my_start start]; [done|].
  cbn [for_of].
  match goal with
  | |- context [for_of inds _ ?fc ≫= _] =>
      destruct (tally_pass_throws position i fc Hex) as [msg Hm]
  end.
  exists msg. cbv zeta in Hm |- *. by rewrite Hm.
Qed.
End any_population.

Section any_counts.
Context (σ : gmap nat (list byte)) (inds : list Individual).
Context (Hall : Forall (λ individual, is_Some (genome_bytes σ individual)) inds).

Lemma marker_counts_any (start : list nat) (position nf i0 : nat)
    (acc : list (gmap (option Z) nat)) :
  ∃ tables,
    for_loop nf i0
      (λ i marker_counts,
         feature_counts ← feature_table σ inds start position i;
         Ok (marker_counts ++ [feature_counts]))
      acc
    = Ok (acc ++ tables) ∧
    length tables = nf ∧
    (∀ j table, tables !! j = Some table →
                tallies σ inds (length start) (position + (i0 + j)) table).
Proof.
  revert i0 acc. induction nf as [|nf IH]; intros i0 acc.
  - exists []. simpl. rewrite app_nil_r. split_and!; [done..|].
    intros j table H. by rewrite lookup_nil in H.
  - destruct (feature_table_any σ inds start position i0 Hall)
      as (table0 & Htable & Hpos & Hsum).
    destruct (IH (S i0) (acc ++ [table0])) as (tables & Hrun & Hlen & Hgood).
    exists (table0 :: tables). cbn [for_loop]. rewrite Htable. cbn [mbind Result_bind].
    rewrite Hrun, <- app_assoc. split_and!; [done | simpl; lia |].
    intros [|j] table Hj; simpl in Hj.
    + injection Hj as <-. rewrite Nat.add_0_r. by split.
    + replace (i0 + S j) with (S i0 + j) by lia. by apply Hgood.
Qed.

Context (metadata : list (string * Chromosome)) (Hnd : NoDup (obj_keys metadata)).

Let body : string → gmap string (list (gmap (option Z) nat)) * nat
           → Result (gmap string (list (gmap (option Z) nat)) * nat) :=
  λ marker_name '(counts, position),
    marker ← deref (obj_get metadata marker_name);
    let '(num_features, start) := scan_plan marker in
    marker_counts ←
      for_loop num_features 0
        (λ i marker_counts,
           feature_counts ← feature_table σ inds start position i;
           Ok (marker_counts ++ [feature_counts]))
        [];
    Ok (<[marker_name := marker_counts]> counts, position + size marker).

Lemma counts_loop_any (entries : list (string * Chromosome))
    (counts : gmap string (list (gmap (option Z) nat))) (position : nat) :
  (∀ e, e ∈ entries → e ∈ metadata) →
  NoDup (obj_keys entries) →
  ∃ counts',
    for_of (obj_keys entries) body (counts, position)
    = Ok (counts', position + total_size entries) ∧
    (∀ k n c, entries !! k = Some (n, c) →
       ∃ tables,
         counts' !! n = Some tables ∧ length tables = (scan_plan c).1 ∧
         ∀ j table, tables !! j = Some table →
           tallies σ inds (length (scan_plan c).2)
             (position + total_size (take k entries) + j) table) ∧
    (∀ n, n ∉ obj_keys entries → counts' !! n = counts !! n).
Proof.
  revert counts position.
  induction entries as [|[n c] entries IH]; intros counts position Hsub Hnd'.
  - exists counts. simpl. rewrite Nat.add_0_r. split_and!; [done| |done].
    intros k n c H. by rewrite lookup_nil in H.
  - change (total_size ((n, c) :: entries)) with (size c + total_size entries).
    change (obj_keys ((n, c) :: entries)) with (n :: obj_keys entries) in *.
    apply NoDup_cons in Hnd' as [Hn Hnd'].
    destruct (marker_counts_any (scan_plan c).2 position (scan_plan c).1 0 [])
      as (tables & Hmid & Hlen & Hgood).
    assert (Hstep : body n (counts, position)
                    = Ok (<[n := tables]> counts, position + size c)).
    { unfold body. rewrite (obj_get_entry metadata n c Hnd) by (apply Hsub; by left).
      cbn [mbind Result_bind deref].
      destruct (scan_plan c) as [nf start]. simpl in Hmid. by rewrite Hmid. }
    destruct (IH (<[n := tables]> counts) (position + size c))
      as (counts' & Hrun & Hat & Hother); [|done|].
    { intros e He. apply Hsub. by right. }
    exists counts'. cbn [for_of]. rewrite Hstep. cbn [mbind Result_bind]. rewrite Hrun.
    split_and!.
    + f_equal. f_equal. lia.
    + intros [|k] n' c' Hk; simpl in Hk.
      * injection Hk as <- <-. exists tables. rewrite Hother by done.
        rewrite lookup_insert_eq. split_and!; [done..|].
        intros j table Hj.
        change (total_size (take 0 ((n, c) :: entries))) with 0.
        rewrite Nat.add_0_r. by apply Hgood.
      * destruct (Hat k n' c' Hk) as (tables' & Ht & Hl & Hg).
        exists tables'. split_and!; [done..|]. intros j table Hj.
        change (total_size (take (S k) ((n, c) :: entries)))
          with (size c + total_size (take k entries)).
        rewrite Nat.add_assoc. by apply Hg.
    + intros m Hm. apply not_elem_of_cons in Hm as [Hne Hm].
      rewrite Hother by done. by rewrite lookup_insert_ne.
Qed.
End any_counts.

(** X12. For any non-empty population whose members all have a genome
    buffer, [GenomeCountStatistics.compute] hands [compute_counts] an
    object with one entry per chromosome name and no other key; the entry
    holds one table per scanned locus (all markers of a plain chromosome,
    half of them for an autosomal one), and the table of locus [i] has
    exactly the alleles found at position [start + i] of the genomes as
    keys, each counted once (twice on an autosomal chromosome) per
    individual that carries it there. *)
Theorem genome_counts_any_population
    (compute_counts : gmap string (list (gmap (option Z) nat)) → Result Value)
    (σ : gmap nat (list byte)) (gp : gmap string Value) (cyc : Z)
    (first : Individual) (rest : list Individual)
    (metadata : list (string * Chromosome)) (g : Genome) :
  NoDup (obj_keys metadata) →
  gn_Genome metadata = Ok g →
  _genome (species first) = g →
  Forall (λ individual, is_Some (genome_bytes σ individual)) (first :: rest) →
  ∃ counts,
    ops_GenomeCountStatistics_compute compute_counts σ gp cyc (first :: rest)
    = compute_counts counts ∧
    (∀ n, is_Some (counts !! n) ↔ n ∈ obj_keys metadata) ∧
    (∀ n c start,
       obj_get metadata n = Some c → get_marker_start g n = Some start →
       ∃ tables,
         counts !! n = Some tables ∧
         length tables = (scan_plan c).1 ∧
         length (scan_plan c).2 = (if is_autosomal c then 2 else 1) ∧
         ∀ i table, tables !! i = Some table →
           tallies σ (first :: rest) (length (scan_plan c).2) (start + i) table).
Proof.
  intros Hnd Hg Hspecies Hall.
  destruct (genome_starts metadata (genome_nonempty _ _ Hg) Hnd)
    as (g' & Hg' & Hmeta & Horder & Hsize & Hstart & _).
  rewrite Hg in Hg'. injection Hg' as <-.
  destruct (counts_loop_any σ (first :: rest) Hall metadata Hnd metadata ∅ 0)
    as (counts & Hrun & Hat & Hother); [done..|].
  exists counts. split_and!.
  - unfold ops_GenomeCountStatistics_compute, GenomeCountStatistics_counts.
    cbn [lookup list_lookup deref mbind Result_bind].
    cbv zeta in Hrun |- *. rewrite Hspecies, Hmeta, Horder, Hrun. done.
  - intros n. split.
    + intros Hsome. destruct (decide (n ∈ obj_keys metadata)) as [|Hnot]; [done|].
      rewrite (Hother n Hnot), lookup_empty in Hsome. by destruct Hsome.
    + intros Hin. destruct (obj_get_key metadata n Hin) as [c Hc].
      destruct (list_elem_of_lookup_1 _ _ (obj_get_Some _ _ _ Hc)) as [k Hk].
      destruct (Hat k n c Hk) as (tables & -> & _). eauto.
  - intros n c start Hc Hs.
    destruct (list_elem_of_lookup_1 _ _ (obj_get_Some _ _ _ Hc)) as [k Hk].
    rewrite (Hstart _ _ _ Hk) in Hs. injection Hs as <-.
    destruct (Hat k n c Hk) as (tables & Ht & Hl & Hgood).
    exists tables. split_and!; [done..| |].
    + unfold scan_plan. by destruct (is_autosomal c).
    + intros i table Hi. specialize (Hgood i table Hi). by rewrite Nat.add_0_l in Hgood.
Qed.

Lemma two_different_genomes (g : Genome) :
  Forall (λ individual,
            is_Some (genome_bytes {[0 := [x01; x00]; 1 := [x00; x00]]} individual))
    [set_genome (individual_of g) (Some 0); set_genome (individual_of g) (Some 1)].
Proof. repeat constructor; by eexists. Qed.

Lemma genome_counts_any_population_example :
  ∃ g counts tables table,
    gn_Genome [("chr"%string, two_loci)] = Ok g ∧
    ops_GenomeCountStatistics_compute (λ counts, Ok (VCounts counts))
      {[0 := [x01; x00]; 1 := [x00; x00]]} ∅ 0
      [set_genome (individual_of g) (Some 0); set_genome (individual_of g) (Some 1)]
    = Ok (VCounts counts) ∧
    counts !! "chr"%string = Some tables ∧ tables !! 0 = Some table ∧
    default 0 (table !! Some 1%Z) = 1 ∧ default 0 (table !! Some 0%Z) = 1.
Proof.
  destruct (genome_starts [("chr"%string, two_loci)])
    as (g & Hg & _ & _ & _ & Hstart & _); [done | compute_done |].
  destruct (genome_counts_any_population (λ counts, Ok (VCounts counts))
              {[0 := [x01; x00]; 1 := [x00; x00]]} ∅ 0
              (set_genome (individual_of g) (Some 0))
              [set_genome (individual_of g) (Some 1)]
              [("chr"%string, two_loci)] g)
    as (counts & Hrun & _ & Htables);
    [compute_done | exact Hg | reflexivity | exact (two_different_genomes g) |].
  destruct (Htables "chr"%string two_loci 0)
    as (tables & Ht & Hlen & _ & Hgood);
    [reflexivity | exact (Hstart 0 "chr"%string two_loci eq_refl) |].
  destruct (lookup_lt_is_Some_2 tables 0) as [table Htable];
    [rewrite Hlen; vm_compute; lia|].
  destruct (Hgood 0 table Htable) as [_ Hsum].
  exists g, counts, tables, table.
  split_and!; [exact Hg | exact Hrun | exact Ht | exact Htable | | ].
  - rewrite Hsum. reflexivity.
  - rewrite Hsum. reflexivity.
Defined.

Section counts_throw.
Context (σ : gmap nat (list byte)) (inds : list Individual).
Context (Hex : Exists (λ individual, genome_bytes σ individual = None) inds).
Context (metadata : list (string * Chromosome)) (Hnd : NoDup (obj_keys metadata)).

Let body : string → gmap string (list (gmap (option Z) nat)) * nat
           → Result (gmap string (list (gmap (option Z) nat)) * nat) :=
  λ marker_name '(counts, position),
    marker ← deref (obj_get metadata marker_name);
    let '(num_features, start) := scan_plan marker in
    marker_counts ←
      for_loop num_features 0
        (λ i marker_counts,
           feature_counts ← feature_table σ inds start position i;
           Ok (marker_counts ++ [feature_counts]))
        [];
    Ok (<[marker_name := marker_counts]> counts, position + size marker).

Lemma scan_plan_start (c : Chromosome) : (scan_plan c).2 ≠ [].
Proof. unfold scan_plan. by destruct (is_autosomal c). Qed.

Lemma counts_loop_throws (entries : list (string * Chromosome))
    (counts : gmap string (list (gmap (option Z) nat))) (position : nat) :
  (∀ e, e ∈ entries → e ∈ metadata) →
  (∃ n c, (n, c) ∈ entries ∧ 0 < (scan_plan c).1) →
  ∃ msg, for_of (obj_keys entries) body (counts, position) = Throw (TypeError msg).
Proof.
  revert counts position.
  induction entries as [|[n c] entries IH]; intros counts position Hsub (n0 & c0 & Hin & Hpos).
  - by apply elem_of_nil in Hin.
  - change (obj_keys ((n, c) :: entries)) with (n :: obj_keys entries).
    cbn [for_of]. unfold body.
    rewrite (obj_get_entry metadata n c Hnd) by (apply Hsub; by left).
    cbn [mbind Result_bind deref].
    pose proof (scan_plan_start c) as Hstart.
    destruct (scan_plan c) as [nf start] eqn:Eplan. simpl in Hstart.
    destruct nf as [|nf].
    + cbn [for_loop mbind Result_bind]. apply IH.
      * intros e He. apply Hsub. by right.
      * apply elem_of_cons in Hin as [[= -> ->]|Hin]; [|by exists n0, c0].
        rewrite Eplan in Hpos. simpl in Hpos. lia.
    + cbn [for_loop].
      destruct (feature_table_throws σ inds start position 0 Hstart Hex) as [msg ->].
      by exists msg.
Qed.
End counts_throw.

(** X13. [GenomeCountStatistics.compute] throws a [TypeError] on an empty
    population (it reads the species of the first individual), and also
    when some individual has no genome buffer while the genome has a
    chromosome with at least one locus to scan. *)
Theorem genome_counts_throws
    (compute_counts : gmap string (list (gmap (option Z) nat)) → Result Value)
    (σ : gmap nat (list byte)) (gp : gmap string Value) (cyc : Z) :
  (∃ msg, ops_GenomeCountStatistics_compute compute_counts σ gp cyc []
          = Throw (TypeError msg)) ∧
  (∀ first rest metadata g n c,
     NoDup (obj_keys metadata) → gn_Genome metadata = Ok g →
     _genome (species first) = g →
     obj_get metadata n = Some c → 0 < (scan_plan c).1 →
     Exists (λ individual, genome_bytes σ individual = None) (first :: rest) →
     ∃ msg, ops_GenomeCountStatistics_compute compute_counts σ gp cyc (first :: rest)
            = Throw (TypeError msg)).
Proof.
  split; [by eexists|].
  intros first rest metadata g n c Hnd Hg Hspecies Hc Hpos Hex.
  destruct (genome_built metadata (genome_nonempty _ _ Hg)) as (g' & Hg' & Hmeta & Horder).
  rewrite Hg in Hg'. injection Hg' as <-.
  destruct (counts_loop_throws σ (first :: rest) Hex metadata Hnd metadata ∅ 0)
    as [msg Hrun]; [done | |].
  { exists n, c. split; [by apply obj_get_Some | done]. }
  exists msg.
  unfold ops_GenomeCountStatistics_compute, GenomeCountStatistics_counts.
  cbn [lookup list_lookup deref mbind Result_bind].
  cbv zeta in Hrun |- *. by rewrite Hspecies, Hmeta, Horder, Hrun.
Qed.

(** ** The cycle step and the drivers, for lists of operators *)





Lemma changes_throw (ops : list Operator) (state : State) :
  BaseOperator ∈ ops → ∃ e, for_of ops change state = Throw e.
Proof.
  revert state. induction ops as [|op ops IH]; intros state Hin.
  - by apply elem_of_nil in Hin.
  - cbn [for_of]. destruct (change op state) as [state1|e] eqn:E; simpl; [|by eexists].
    apply IH. apply elem_of_cons in Hin as [<-|Hin]; [done|done].
Qed.

(** X15. An operator list that contains the abstract base operator makes
    the cycle step throw, and the synchronous driver halts on that error
    in its first cycle instead of returning a state. *)
Theorem abstract_operator_halts_run (inds : list Individual) (ops : list Operator)
    (previous_cycle : Z) (fuel : nat) (state : State) :
  BaseOperator ∈ ops →
  (operators state = ops → ∃ e, sim_cycle state = Throw e) ∧
  ∃ e, sim_do_unspecified_cycles (S fuel) inds ops previous_cycle = Some (Throw e).
Proof.
  intros Hin. split.
  - intros Hops. unfold sim_cycle. rewrite Hops.
    destruct (changes_throw ops state Hin) as [e ->]. by eexists.
  - unfold sim_do_unspecified_cycles. cbn [while_not_stopped].
    change (global_parameters {| global_parameters := ?gp |}) with gp.
    rewrite lookup_singleton_eq. cbn [is_false]. unfold sim_cycle.
    change (operators {| operators := ?o |}) with o.
    destruct (changes_throw ops
                {| global_parameters := {["stop"%string := VBool false]};
                   individuals := inds; operators := ops; cycle := previous_cycle |} Hin)
      as [e ->]. by eexists.
Qed.

Lemma abstract_operator_halts_run_example :
  ∃ e, sim_do_unspecified_cycles 1 [] [RxOperator; BaseOperator; CycleStopOperator 0] 0
       = Some (Throw e).
Proof.
  apply (abstract_operator_halts_run [] [RxOperator; BaseOperator; CycleStopOperator 0] 0 0
           {| global_parameters := ∅; individuals := []; operators := []; cycle := 0 |}).
  apply elem_of_cons. right. apply elem_of_cons. by left.
Defined.

(** Quiet operators always return and leave the stop flag alone. *)
Lemma quiet_changes (ops : list Operator) (state : State) :
  Forall quiet ops →
  ∃ state',
    for_of ops change state = Ok state' ∧
    cycle state' = cycle state ∧
    individuals state' = individuals state ∧
    operators state' = operators state ∧
    global_parameters state' !! "stop"%string = global_parameters state !! "stop"%string.
Proof.
  intros Hq. revert state. induction Hq as [|op ops Hop _ IH]; intros state.
  - by exists state.
  - cbn [for_of]. destruct op as [|target| |name compute]; try done.
    + simpl. apply IH.
    + destruct Hop as [Hname Htotal].
      destruct (Htotal (global_parameters state) (cycle state) (individuals state))
        as [v Hv].
      cbn [change]. rewrite Hv. cbn [mbind Result_bind].
      destruct (IH (set_global_parameters state
                      (<[name := v]> (global_parameters state))))
        as (state' & Hrun & Hc & Hi & Ho & Hs).
      exists state'. split_and!; [done..|].
      rewrite Hs. simpl. by rewrite lookup_insert_ne.
Qed.

(** Operators that cannot end the run leave the stop flag alone as long
    as the cycle is at or past the start. *)
Lemma never_stopping_changes (from : Z) (ops : list Operator) (state : State) :
  Forall (never_stops from) ops → (from ≤ cycle state)%Z →
  ∃ state',
    for_of ops change state = Ok state' ∧
    cycle state' = cycle state ∧
    individuals state' = individuals state ∧
    operators state' = operators state ∧
    global_parameters state' !! "stop"%string = global_parameters state !! "stop"%string.
Proof.
  intros Hq. revert state. induction Hq as [|op ops Hop _ IH]; intros state Hfrom.
  - by exists state.
  - destruct Hop as [Hquiet|(target & -> & Htarget)].
    + destruct (quiet_changes [op] state) as (state1 & Hrun1 & Hc1 & Hi1 & Ho1 & Hs1).
      { by constructor. }
      cbn [for_of] in Hrun1 |- *.
      destruct (change op state) as [state1'|e]; [|done]. simpl in Hrun1.
      injection Hrun1 as ->. cbn [mbind Result_bind].
      destruct (IH state1) as (state' & Hrun & Hc & Hi & Ho & Hs); [lia|].
      exists state'. split_and!; [done|congruence..].
    + cbn [for_of change]. rewrite decide_False by lia. cbn [mbind Result_bind].
      by apply IH.
Qed.

Section quiet_run.
Context (target : Z) (ops : list Operator) (Hquiet : Forall quiet ops).


End quiet_run.




(** A run whose operators cannot set the stop flag uses up any number of
    iterations. *)
Lemma never_stopping_loop (from : Z) (ops : list Operator) (fuel : nat) (state : State) :
  Forall (never_stops from) ops → operators state = ops → (from ≤ cycle state)%Z →
  global_parameters state !! "stop"%string = Some (VBool false) →
  while_not_stopped fuel state = None.
Proof.
  intros Hops. revert state.
  induction fuel as [|fuel IH]; intros state Ho Hfrom Hstop;
    cbn [while_not_stopped]; rewrite Hstop; cbn [is_false]; [done|].
  unfold sim_cycle. rewrite Ho.
  destruct (never_stopping_changes from ops state Hops Hfrom)
    as (state' & -> & Hc & Hi & Ho' & Hs).
  cbn [mbind Result_bind]. apply IH; simpl; [congruence | lia | congruence].
Qed.

(** X17. [do_unspecified_cycles] does not terminate when no operator can
    set the stop flag: with operators that are Rx operators, statistics
    that never throw and are not named ["stop"], or stop operators whose
    target cycle lies before [previous_cycle], the loop is still running
    after any number of iterations. *)
Theorem unspecified_cycles_without_reachable_stop (inds : list Individual)
    (ops : list Operator) (previous_cycle : Z) :
  Forall (never_stops previous_cycle) ops →
  ∀ fuel, sim_do_unspecified_cycles fuel inds ops previous_cycle = None.
Proof.
  intros Hops fuel. unfold sim_do_unspecified_cycles. cbv zeta.
  apply (never_stopping_loop previous_cycle ops); [done|done|simpl; lia|].
  simpl. by rewrite lookup_singleton_eq.
Qed.

Lemma unspecified_cycles_without_reachable_stop_example :
  sim_do_unspecified_cycles 1000 [] [RxOperator; CycleStopOperator 3; seen_cycles] 4
  = None.
Proof.
  apply (unspecified_cycles_without_reachable_stop []
           [RxOperator; CycleStopOperator 3; seen_cycles] 4).
  apply Forall_cons. split; [by left|].
  apply Forall_cons. split; [right; exists 3%Z; split; [done|lia]|].
  apply Forall_cons. split; [|by apply Forall_nil].
  left. split; [done|]. intros gp c inds. by eexists.
Defined.



(** Stop and Rx operators turn the initial parameters into themselves or
    into the parameters with the stop flag set. *)
Lemma memoryless_changes (ops : list Operator) (inds : list Individual)
    (all : list Operator) (c : Z) (gp : gmap string Value) :
  Forall memoryless ops →
  gp = {["stop"%string := VBool false]}
  ∨ gp = <["stop"%string := VBool true]> {["stop"%string := VBool false]} →
  ∃ gp',
    for_of ops change {| global_parameters := gp; individuals := inds;
                         operators := all; cycle := c |}
    = Ok {| global_parameters := gp'; individuals := inds;
            operators := all; cycle := c |} ∧
    (gp' = {["stop"%string := VBool false]}
     ∨ gp' = <["stop"%string := VBool true]> {["stop"%string := VBool false]}).
Proof.
  intros Hops. revert gp. induction Hops as [|op ops Hop _ IH]; intros gp Hgp.
  - by exists gp.
  - cbn [for_of]. destruct op as [|target| |name compute]; try done.
    + cbn [change]. case_decide; cbn [mbind Result_bind]; [|by apply IH].
      apply IH. right. simpl. destruct Hgp as [->| ->]; [done|].
      by rewrite insert_insert_eq.
    + cbn [change mbind Result_bind]. by apply IH.
Qed.

(** X19. For operators that are stop or Rx operators, driving
    [do_async_cycles] through every [return_callback] delivers exactly
    what [do_unspecified_cycles] returns on the same individuals,
    operators and previous cycle, whatever [global_parameters] is passed:
    the same final state after the same number of cycles, or neither
    ends. *)
Theorem async_run_matches_loop (fuel : nat) (inds : list Individual)
    (ops : list Operator) (previous_cycle : Z) (gp : gmap string Value) :
  Forall memoryless ops →
  async_run fuel {| r_individuals := inds; r_operators := ops;
                    r_previous_cycle := previous_cycle;
                    r_global_parameters := gp |}
  = sim_do_unspecified_cycles fuel inds ops previous_cycle.
Proof.
  intros Hops. unfold sim_do_unspecified_cycles. cbv zeta.
  revert previous_cycle gp. induction fuel as [|fuel IH]; intros prev gp.
  - cbn [async_run while_not_stopped]. simpl. by rewrite lookup_singleton_eq.
  - cbn [async_run while_not_stopped]. unfold resume. simpl r_individuals.
    simpl r_operators. simpl r_previous_cycle. simpl r_global_parameters.
    rewrite async_invocation.
    change (global_parameters {| global_parameters := ?g; individuals := _;
                                 operators := _; cycle := _ |}) with g.
    rewrite lookup_singleton_eq. cbn [is_false].
    unfold sim_cycle. simpl operators.
    destruct (memoryless_changes ops inds ops prev {["stop"%string := VBool false]} Hops)
      as (gp' & -> & Hgp'); [by left|].
    cbn [mbind Result_bind]. simpl.
    destruct Hgp' as [->| ->].
    + rewrite lookup_singleton_eq. simpl. apply IH.
    + rewrite lookup_insert_eq. simpl.
      destruct fuel; cbn [while_not_stopped]; simpl; by rewrite lookup_insert_eq.
Qed.

Lemma async_run_matches_loop_example :
  async_run 5 {| r_individuals := []; r_operators := [RxOperator; CycleStopOperator 2];
                 r_previous_cycle := 0;
                 r_global_parameters := {["seen"%string := VNum 7]} |}
  = sim_do_unspecified_cycles 5 [] [RxOperator; CycleStopOperator 2] 0.
Proof.
  apply (async_run_matches_loop 5 [] [RxOperator; CycleStopOperator 2] 0
           {["seen"%string := VNum 7]}).
  by repeat constructor.
Defined.

(** ** Generated individuals, their populations and their sexes *)

Lemma generate_n_inds_S {G} (n : nat) (generator : G → Individual * G) (g : G) :
  p_generate_n_inds (S n) generator g
  = ((p_generate_n_inds n generator g).1
       ++ [(generator (p_generate_n_inds n generator g).2).1],
     (generator (p_generate_n_inds n generator g).2).2).
Proof.
  unfold p_generate_n_inds. rewrite Nat.iter_succ.
  destruct (Nat.iter n _ _) as [inds s]. simpl. by destruct (generator s).
Qed.

Lemma generate_n_inds_length {G} (n : nat) (generator : G → Individual * G) (g : G) :
  length (p_generate_n_inds n generator g).1 = n.
Proof.
  induction n as [|n IH]; [done|].
  rewrite generate_n_inds_S. simpl. rewrite length_app, IH. simpl. lia.
Qed.

Lemma generate_basic_inds (n : nat) (sp : Species) (cyc : Z) (global_id : nat) :
  (p_generate_n_inds n (i_generate_basic_individual sp cyc) global_id).2 = global_id + n ∧
  ∀ i, i < n →
    (p_generate_n_inds n (i_generate_basic_individual sp cyc) global_id).1 !! i
    = Some {| _id := global_id + i; species := sp; _alive := true; cycle_born := cyc;
              is_female := None; genome := None |}.
Proof.
  induction n as [|n [IHid IH]]; [split; [simpl; lia | lia]|].
  rewrite generate_n_inds_S. simpl. split; [rewrite IHid; lia|].
  intros i Hi. destruct (decide (i < n)) as [Hlt|Hge].
  - rewrite lookup_app_l by (rewrite generate_n_inds_length; lia). by apply IH.
  - assert (i = n) as -> by lia.
    rewrite lookup_app_r by (rewrite generate_n_inds_length; lia).
    rewrite generate_n_inds_length, Nat.sub_diag. simpl. by rewrite IHid.
Qed.

(** X20. [generate_n_inds(num_inds, generator)] returns [num_inds]
    individuals for any generator.  With the basic generator the [i]-th
    one is alive, born in the given cycle, without sex or genome, and has
    the id [global_id + i]: the ids are pairwise distinct and the counter
    has advanced by [num_inds], so a later run starts above them. *)
Theorem generated_individuals_have_fresh_ids (n : nat) (sp : Species) (cyc : Z)
    (global_id : nat) :
  (∀ G (generator : G → Individual * G) g,
     length (p_generate_n_inds n generator g).1 = n) ∧
  let run := p_generate_n_inds n (i_generate_basic_individual sp cyc) global_id in
  run.2 = global_id + n ∧
  (∀ i, i < n →
     run.1 !! i = Some {| _id := global_id + i; species := sp; _alive := true;
                          cycle_born := cyc; is_female := None; genome := None |}) ∧
  NoDup (_id <$> run.1) ∧
  (∀ m ind later,
     ind ∈ run.1 →
     later ∈ (p_generate_n_inds m (i_generate_basic_individual sp cyc) run.2).1 →
     _id ind < _id later).
Proof.
  split; [intros; apply generate_n_inds_length|]. cbv zeta.
  destruct (generate_basic_inds n sp cyc global_id) as [Hid Hinds].
  assert (Hin : ∀ m g0 ind,
            ind ∈ (p_generate_n_inds m (i_generate_basic_individual sp cyc) g0).1 →
            g0 ≤ _id ind < g0 + m).
  { intros m g0 ind [i Hi]%list_elem_of_lookup.
    assert (i < m) as Hlt.
    { apply lookup_lt_Some in Hi. by rewrite generate_n_inds_length in Hi. }
    destruct (generate_basic_inds m sp cyc g0) as [_ Hm].
    rewrite (Hm i Hlt) in Hi. injection Hi as <-. simpl. lia. }
  split_and!; [done|done| |].
  - apply NoDup_alt. intros i j id Hi Hj.
    rewrite list_lookup_fmap in Hi, Hj.
    assert (i < n) as Hlti.
    { destruct (_ !! i) eqn:E; [|done]. apply lookup_lt_Some in E.
      by rewrite generate_n_inds_length in E. }
    assert (j < n) as Hltj.
    { destruct (_ !! j) eqn:E; [|done]. apply lookup_lt_Some in E.
      by rewrite generate_n_inds_length in E. }
    rewrite (Hinds i Hlti) in Hi. rewrite (Hinds j Hltj) in Hj.
    simpl in Hi, Hj. simplify_eq. lia.
  - intros m ind later Hind Hlater.
    apply Hin in Hind. apply Hin in Hlater. rewrite Hid in Hlater. lia.
Qed.

(** The loop of [SexStatistics.compute] from any pair of counters. *)
Lemma sex_counts_loop (individuals : list Individual) (males females : nat) :
  fold_left
    (λ '(males, females) individual,
       match is_female individual with
       | Some true => (males, females + 1)
       | _ => (males + 1, females)
       end)
    individuals (males, females)
  = (males + length (filter (λ ind, is_female ind ≠ Some true) individuals),
     females + length (filter (λ ind, is_female ind = Some true) individuals)).
Proof.
  revert males females. induction individuals as [|ind inds IH]; intros males females.
  - simpl. f_equal; lia.
  - cbn [fold_left]. rewrite !filter_cons.
    destruct (is_female ind) as [[|]|] eqn:E; rewrite IH;
      repeat case_decide; try done; simpl; f_equal; lia.
Qed.

Lemma assigned_sex (random : Q) (individual : Individual) :
  is_female (i_assign_random_sex random individual) = Some true ↔ (1 # 2 <= random)%Q.
Proof.
  unfold i_assign_random_sex. simpl. destruct (Qlt_le_dec random (1 # 2)) as [Hlt|Hle].
  - split; [done|]. intros Hle. by apply Qle_not_lt in Hle.
  - done.
Qed.

(** X21. [SexStatistics.compute] counts every individual once: [females]
    is the number of individuals whose [is_female] is [true], [males] the
    number of all others, so the two add up to the population size and an
    individual whose sex was never assigned is counted as male.  After
    [assign_random_sex] an individual is counted as female exactly when
    its draw was at least one half. *)
Theorem sex_statistics_partition (global_parameters : gmap string Value) (c : Z)
    (individuals : list Individual) :
  let counts := SexStatistics_compute global_parameters c individuals in
  females counts = length (filter (λ ind, is_female ind = Some true) individuals) ∧
  males counts = length (filter (λ ind, is_female ind ≠ Some true) individuals) ∧
  females counts + males counts = length individuals ∧
  (∀ n sp cyc global_id,
     SexStatistics_compute global_parameters c
       (p_generate_n_inds n (i_generate_basic_individual sp cyc) global_id).1
     = {| females := 0; males := n |}) ∧
  (∀ random individual,
     SexStatistics_compute global_parameters c
       (individuals ++ [i_assign_random_sex random individual])
     = if Qle_bool (1 # 2) random
       then {| females := females counts + 1; males := males counts |}
       else {| females := females counts; males := males counts + 1 |}).
Proof.
  assert (Hcompute : ∀ inds,
            SexStatistics_compute global_parameters c inds
            = {| females := length (filter (λ ind, is_female ind = Some true) inds);
                 males := length (filter (λ ind, is_female ind ≠ Some true) inds) |}).
  { intros inds. unfold SexStatistics_compute. by rewrite sex_counts_loop. }
  cbv zeta. rewrite Hcompute. simpl. split_and!; [done|done| | |].
  - induction individuals as [|ind inds IH]; [done|].
    rewrite !filter_cons. repeat case_decide; try done; simpl; lia.
  - intros n sp cyc global_id. rewrite Hcompute.
    set (inds := (p_generate_n_inds n _ global_id).1).
    assert (Hnone : ∀ ind, ind ∈ inds → is_female ind = None).
    { intros ind [i Hi]%list_elem_of_lookup.
      assert (i < n) as Hlt.
      { apply lookup_lt_Some in Hi. unfold inds in Hi.
        by rewrite generate_n_inds_length in Hi. }
      destruct (generate_basic_inds n sp cyc global_id) as [_ Hinds].
      unfold inds in Hi. rewrite (Hinds i Hlt) in Hi. by injection Hi as <-. }
    assert (Hlen : length inds = n) by apply generate_n_inds_length.
    clearbody inds. subst n. f_equal.
    + induction inds as [|ind inds IH]; [done|].
      rewrite filter_cons. rewrite decide_False.
      * apply IH. intros ? ?. apply Hnone. by right.
      * rewrite Hnone; [done|by left].
    + induction inds as [|ind inds IH]; [done|].
      rewrite filter_cons. rewrite decide_True.
      * simpl. f_equal. apply IH. intros ? ?. apply Hnone. by right.
      * rewrite Hnone; [done|by left].
  - intros random individual. rewrite Hcompute, !filter_app, !length_app.
    rewrite !filter_cons, !filter_nil.
    destruct (Qle_bool (1 # 2) random) eqn:E.
    + apply Qle_bool_iff in E. apply (assigned_sex random individual) in E.
      rewrite decide_True by done. rewrite decide_False by (intros Hne; by apply Hne).
      simpl. f_equal; lia.
    + assert (is_female (i_assign_random_sex random individual) ≠ Some true) as Hne.
      { intros H%assigned_sex. apply Qle_bool_iff in H. by rewrite H in E. }
      rewrite decide_False by done. rewrite decide_True by done. simpl.
      f_equal; lia.
Qed.

(** Counting the indices below [S n] that leave the remainder [k]. *)
Lemma remainder_count_step (n m k : nat) :
  0 < m → k < m →
  S n / m + (if decide (k < S n mod m) then 1 else 0)
  = n / m + (if decide (k < n mod m) then 1 else 0)
    + (if decide (n mod m = k) then 1 else 0).
Proof.
  intros Hm Hk.
  pose proof (Nat.div_mod_eq n m) as Hn.
  pose proof (Nat.mod_upper_bound n m ltac:(lia)) as Hr.
  destruct (decide (S (n mod m) = m)) as [Hwrap|Hnext].
  - assert (S n / m = S (n / m)) as ->.
    { symmetry. apply (Nat.div_unique _ _ _ 0); lia. }
    assert (S n mod m = 0) as ->.
    { symmetry. apply (Nat.mod_unique _ _ (S (n / m))); lia. }
    repeat case_decide; lia.
  - assert (S n / m = n / m) as ->.
    { symmetry. apply (Nat.div_unique _ _ _ (S (n mod m))); lia. }
    assert (S n mod m = S (n mod m)) as ->.
    { symmetry. apply (Nat.mod_unique _ _ (n / m)); lia. }
    repeat case_decide; lia.
Qed.

(** A list whose [i]-th element satisfies [P] exactly when [i] leaves
    the remainder [k] has its share of elements that satisfy [P]. *)
Lemma remainder_count {A} (P : A → Prop) `{!∀ x, Decision (P x)} (l : list A)
    (m k : nat) :
  0 < m → k < m →
  (∀ i x, l !! i = Some x → P x ↔ i mod m = k) →
  length (filter P l)
  = length l / m + (if decide (k < length l mod m) then 1 else 0).
Proof.
  intros Hm Hk. induction l as [|x l IH] using rev_ind; intros HP.
  - simpl. rewrite Nat.Div0.div_0_l, Nat.Div0.mod_0_l. by rewrite decide_False by lia.
  - rewrite filter_app, !length_app. cbn [length].
    replace (length l + 1) with (S (length l)) by lia.
    rewrite remainder_count_step by done. rewrite IH.
    + f_equal. rewrite filter_cons, filter_nil.
      assert (HPx : P x ↔ length l mod m = k).
      { apply HP. rewrite lookup_app_r by lia. by rewrite Nat.sub_diag. }
      repeat case_decide; try done; tauto.
    + intros i y Hi. apply HP. rewrite lookup_app_l; [done|].
      by apply lookup_lt_Some in Hi.
Qed.

(** The loop of [assign_fixed_size_population] over the indices
    [i, ..., i + n - 1]. *)
Lemma fixed_size_loop (inds : list Individual) (num_pops : nat) (n i : nat)
    (pops : Pops) :
  NoDup (_id <$> inds) → i + n ≤ length inds →
  ∃ pops',
    for_loop n i
      (λ i pops,
         ind ← deref (inds !! i);
         Ok (<[_id ind := js_rem i num_pops]> pops))
      pops = Ok pops' ∧
    (∀ j ind, i ≤ j < i + n → inds !! j = Some ind →
       pops' !! _id ind = Some (js_rem j num_pops)) ∧
    (∀ id, (∀ j ind, i ≤ j < i + n → inds !! j = Some ind → _id ind ≠ id) →
       pops' !! id = pops !! id).
Proof.
  intros Hnodup. revert i pops. induction n as [|n IH]; intros i pops Hlen.
  - exists pops. split_and!; [done| |done]. intros; lia.
  - cbn [for_loop]. destruct (lookup_lt_is_Some_2 inds i ltac:(lia)) as [first Hfirst].
    rewrite Hfirst. cbn [deref mbind Result_bind].
    destruct (IH (S i) (<[_id first := js_rem i num_pops]> pops) ltac:(lia))
      as (pops' & -> & Hset & Hframe).
    exists pops'. split_and!; [done| |].
    + intros j ind Hj Hind. destruct (decide (j = i)) as [->|Hne].
      * assert (ind = first) as -> by congruence.
        rewrite Hframe; [by rewrite lookup_insert_eq|].
        intros j other Hj' Hother Heq.
        assert (j = i); [|lia].
        apply (NoDup_lookup (_id <$> inds) j i (_id first) Hnodup);
          rewrite list_lookup_fmap; [by rewrite Hother, <- Heq | by rewrite Hfirst].
      * apply Hset; [lia|done].
    + intros id Hid. rewrite Hframe.
      * rewrite lookup_insert_ne; [done|]. apply (Hid i); [lia|done].
      * intros j ind Hj. apply Hid. lia.
Qed.

(** X22. [assign_fixed_size_population(inds, num_pops)] on distinct
    individuals returns and gives the [i]-th individual the population
    [i % num_pops] ([NaN] when [num_pops] is 0), touching no other
    individual.  For a positive [num_pops] the allocation is as even as
    possible: population [k] receives [n / num_pops] individuals, and one
    more when [k] is below [n % num_pops], for [n] individuals. *)
Theorem fixed_size_population_is_even (inds : list Individual) (num_pops : nat)
    (pops : Pops) :
  NoDup (_id <$> inds) →
  ∃ pops',
    p_assign_fixed_size_population inds num_pops pops = Ok pops' ∧
    (∀ i ind, inds !! i = Some ind → pops' !! _id ind = Some (js_rem i num_pops)) ∧
    (∀ id, id ∉ _id <$> inds → pops' !! id = pops !! id) ∧
    (num_pops = 0 → ∀ ind, ind ∈ inds → pops' !! _id ind = Some None) ∧
    (∀ k, k < num_pops →
       length (filter (λ ind, pops' !! _id ind = Some (Some (Z.of_nat k))) inds)
       = length inds / num_pops
         + (if decide (k < length inds mod num_pops) then 1 else 0)).
Proof.
  intros Hnodup. unfold p_assign_fixed_size_population.
  destruct (fixed_size_loop inds num_pops (length inds) 0 pops Hnodup ltac:(lia))
    as (pops' & -> & Hset & Hframe).
  assert (Hpop : ∀ i ind, inds !! i = Some ind →
                   pops' !! _id ind = Some (js_rem i num_pops)).
  { intros i ind Hind. apply (Hset i); [|done]. apply lookup_lt_Some in Hind. lia. }
  exists pops'. split_and!; [done|done| | |].
  - intros id Hid. apply Hframe. intros j ind _ Hind <-. apply Hid.
    apply list_elem_of_fmap. exists ind. split; [done|].
    apply list_elem_of_lookup. by exists j.
  - intros -> ind [i Hi]%list_elem_of_lookup. by rewrite (Hpop i ind Hi).
  - intros k Hk. apply remainder_count; [lia|done|].
    intros i ind Hind. rewrite (Hpop i ind Hind). unfold js_rem.
    rewrite decide_False by lia. split.
    + intros H. simplify_eq. lia.
    + intros <-. done.
Qed.

Lemma fixed_size_population_is_even_example :
  ∃ pops',
    p_assign_fixed_size_population (generate_n_basic_individuals 5) 3 ∅ = Ok pops' ∧
    length (filter (λ ind, pops' !! _id ind = Some (Some 1%Z))
              (generate_n_basic_individuals 5)) = 2 ∧
    length (filter (λ ind, pops' !! _id ind = Some (Some 2%Z))
              (generate_n_basic_individuals 5)) = 1.
Proof.
  destruct (fixed_size_population_is_even (generate_n_basic_individuals 5) 3 ∅)
    as (pops' & Hrun & _ & _ & _ & Hcount).
  { compute_done. }
  exists pops'. split; [exact Hrun|]. split.
  - apply (Hcount 1). lia.
  - apply (Hcount 2). lia.
Defined.

(** The population drawn for one individual lies among the populations. *)
Lemma drawn_population (random : Q) (num_pops : nat) :
  (0 <= random)%Q → (random < 1)%Q →
  let pop := Qfloor (random * inject_Z (Z.of_nat num_pops)) in
  (0 ≤ pop)%Z ∧ (if decide (num_pops = 0) then pop = 0%Z else (pop < Z.of_nat num_pops)%Z).
Proof.
  intros H0 H1. cbv zeta. case_decide as Hn.
  - subst num_pops. split.
    + change 0%Z with (Qfloor 0) at 1. apply Qfloor_resp_le.
      apply Qmult_le_0_compat; [done|by apply Qle_refl].
    + change (inject_Z (Z.of_nat 0)) with 0%Q.
      assert (random * 0 == 0)%Q as -> by ring. done.
  - apply floor_scaled_index; [done|done|lia].
Qed.

Lemma random_population_loop (rnd : nat → Q) (num_pops : nat) (inds : list Individual)
    (k : nat) (pops : Pops) :
  (∀ i, (0 <= rnd i)%Q ∧ (rnd i < 1)%Q) →
  let run := p_assign_random_population rnd inds num_pops k pops in
  run.2 = k + length inds ∧
  (∀ id, id ∈ _id <$> inds →
     ∃ pop, run.1 !! id = Some (Some pop) ∧ (0 ≤ pop)%Z ∧
            (if decide (num_pops = 0) then pop = 0%Z else (pop < Z.of_nat num_pops)%Z)) ∧
  (∀ id, id ∉ _id <$> inds → run.1 !! id = pops !! id).
Proof.
  intros Hrnd. cbv zeta. unfold p_assign_random_population.
  revert k pops. induction inds as [|ind inds IH]; intros k pops.
  - simpl. split_and!; [lia| |done]. intros id Hid. by apply elem_of_nil in Hid.
  - cbn [fold_left].
    destruct (IH (S k) (<[_id ind := Some (Qfloor (rnd k * inject_Z (Z.of_nat num_pops)))]>
                          pops)) as (Hk & Hin & Hout).
    split_and!.
    + rewrite Hk. simpl. lia.
    + intros id Hid. destruct (decide (id ∈ _id <$> inds)) as [Hrest|Hrest].
      * by apply Hin.
      * rewrite fmap_cons in Hid. apply elem_of_cons in Hid as [->|Hid]; [|done].
        rewrite (Hout _ Hrest), lookup_insert_eq. eexists. split; [done|].
        apply drawn_population; apply Hrnd.
    + intros id Hid. rewrite fmap_cons in Hid. apply not_elem_of_cons in Hid as [Hne Hid].
      rewrite (Hout _ Hid). by rewrite lookup_insert_ne.
Qed.

(** X23. [assign_random_population(inds, num_pops)] with draws in [0, 1)
    uses one draw per individual and gives every individual of [inds] an
    integer population from 0 to [num_pops - 1], touching no other
    individual; with [num_pops] 0 every individual is put in population
    0. *)
Theorem random_population_in_range (rnd : nat → Q) (inds : list Individual)
    (num_pops k : nat) (pops : Pops) :
  (∀ i, (0 <= rnd i)%Q ∧ (rnd i < 1)%Q) →
  let run := p_assign_random_population rnd inds num_pops k pops in
  run.2 = k + length inds ∧
  (∀ ind, ind ∈ inds →
     ∃ pop, run.1 !! _id ind = Some (Some pop) ∧ (0 ≤ pop)%Z ∧
            (0 < num_pops → (pop < Z.of_nat num_pops)%Z) ∧
            (num_pops = 0 → pop = 0%Z)) ∧
  (∀ id, id ∉ _id <$> inds → run.1 !! id = pops !! id).
Proof.
  intros Hrnd. cbv zeta.
  destruct (random_population_loop rnd num_pops inds k pops Hrnd) as (Hk & Hin & Hout).
  split_and!; [done| |done].
  intros ind Hind. destruct (Hin (_id ind)) as (pop & Hpop & H0 & Hrange).
  { apply list_elem_of_fmap. by exists ind. }
  exists pop. split_and!; [done|done| |]; intros Hn; case_decide; [lia|done|done|lia].
Qed.

Lemma random_population_in_range_example :
  ∃ pop,
    (p_assign_random_population (λ _, (2 # 3)%Q) (generate_n_basic_individuals 2) 3 0 ∅).1
      !! 1 = Some (Some pop) ∧
    (0 ≤ pop < 3)%Z.
Proof.
  destruct (random_population_in_range (λ _, (2 # 3)%Q)
              (generate_n_basic_individuals 2) 3 0 ∅) as (_ & Hin & _).
  { intros _. split; by vm_compute. }
  destruct (Hin {| _id := 1; species := empty_species; _alive := true;
                   cycle_born := 0; is_female := None; genome := None |})
    as (pop & Hpop & H0 & Hlt & _).
  { apply elem_of_cons. right. apply elem_of_cons. by left. }
  exists pop. split; [exact Hpop|]. split; [exact H0|]. apply Hlt. lia.
Defined.

(** ** Individuals generated with a genome *)

Lemma simple_genome_created {St} (func : list Z → St → option Z * St) (s : St)
    (σ : gmap nat (list byte)) (individual : Individual)
    (metadata : list (string * Chromosome)) (g : Genome) :
  NoDup (obj_keys metadata) →
  gn_Genome metadata = Ok g →
  _genome (species individual) = g →
  ∃ buf s',
    integrated_create_simple_genome σ individual func s
    = Ok (<[fresh (dom σ) := buf]> σ, set_genome individual (Some (fresh (dom σ))), s') ∧
    length buf = Genome_size g.
Proof.
  intros Hnd Hg Hspecies.
  destruct (genome_starts metadata (genome_nonempty _ _ Hg) Hnd)
    as (g' & Hg' & Hmeta & Horder & _).
  rewrite Hg in Hg'. injection Hg' as <-.
  destruct (build_loop_frame func metadata Hnd metadata
              (replicate (Genome_size g) "000"%byte) 0 s)
    as (buf & s' & Hrun & Hlen & _); [done|].
  rewrite length_replicate in Hlen.
  exists buf, s'. split; [|done].
  unfold integrated_create_simple_genome.
  cbv zeta in Hrun |- *. by rewrite Hspecies, Hmeta, Horder, Hrun.
Qed.

(** X24. Two individuals generated one after the other by
    [generate_individual_with_genome] with [create_simple_genome] (for any
    allele chooser) have consecutive ids and genomes in two different
    buffers of length [genome.size]: the first buffer is new, and creating
    the second individual leaves the first one's buffer as it was. *)
Theorem generated_genomes_are_not_shared {St} (func : list Z → St → option Z * St)
    (s : St) (σ : gmap nat (list byte)) (sp : Species) (cyc : Z) (global_id : nat)
    (metadata : list (string * Chromosome)) (g : Genome) :
  NoDup (obj_keys metadata) →
  gn_Genome metadata = Ok g →
  _genome sp = g →
  let generator := λ σ ind s, integrated_create_simple_genome σ ind func s in
  ∃ σ1 ind1 s1 σ2 ind2 s2 l1 l2 buf1 buf2,
    integrated_generate_individual_with_genome σ sp cyc generator global_id s
    = (Ok (σ1, ind1, s1), S global_id) ∧
    integrated_generate_individual_with_genome σ1 sp cyc generator (S global_id) s1
    = (Ok (σ2, ind2, s2), S (S global_id)) ∧
    _id ind1 = global_id ∧ _id ind2 = S global_id ∧
    genome ind1 = Some l1 ∧ genome ind2 = Some l2 ∧ l1 ≠ l2 ∧
    σ !! l1 = None ∧ σ1 !! l1 = Some buf1 ∧ σ2 !! l1 = Some buf1 ∧
    σ2 !! l2 = Some buf2 ∧
    length buf1 = Genome_size g ∧ length buf2 = Genome_size g ∧
    (∀ l, l ≠ l1 → l ≠ l2 → σ2 !! l = σ !! l).
Proof.
  intros Hnd Hg Hsp. cbv zeta.
  unfold integrated_generate_individual_with_genome, i_generate_basic_individual,
    i_Individual.
  destruct (simple_genome_created func s σ
              {| _id := global_id; species := sp; _alive := true; cycle_born := cyc;
                 is_female := None; genome := None |} metadata g Hnd Hg Hsp)
    as (buf1 & s1 & Hrun1 & Hlen1).
  set (l1 := fresh (dom σ)) in *. set (σ1 := <[l1 := buf1]> σ) in *.
  destruct (simple_genome_created func s1 σ1
              {| _id := S global_id; species := sp; _alive := true; cycle_born := cyc;
                 is_female := None; genome := None |} metadata g Hnd Hg Hsp)
    as (buf2 & s2 & Hrun2 & Hlen2).
  set (l2 := fresh (dom σ1)) in *.
  assert (Hl1 : σ !! l1 = None) by (apply not_elem_of_dom, is_fresh).
  assert (Hl2 : σ1 !! l2 = None) by (apply not_elem_of_dom, is_fresh).
  assert (Hne : l1 ≠ l2).
  { intros Heq. rewrite <- Heq in Hl2. unfold σ1 in Hl2.
    by rewrite lookup_insert_eq in Hl2. }
  eexists σ1, _, s1, (<[l2 := buf2]> σ1), _, s2, l1, l2, buf1, buf2.
  rewrite Hrun1, Hrun2. split_and!; try done.
  - unfold σ1. by rewrite lookup_insert_eq.
  - rewrite lookup_insert_ne by done. unfold σ1. by rewrite lookup_insert_eq.
  - by rewrite lookup_insert_eq.
  - intros l Hn1 Hn2. rewrite lookup_insert_ne by done.
    unfold σ1. by rewrite lookup_insert_ne.
Qed.

Lemma generated_genomes_are_not_shared_example :
  ∃ g σ1 ind1 ind2 l1 l2,
    gn_Genome x_linked_metadata = Ok g ∧
    integrated_generate_individual_with_genome ∅ {| name := "species"; _genome := g |} 0
      (λ σ ind s, integrated_create_simple_genome σ ind zero_chooser s) 0 ()
    = (Ok (σ1, ind1, ()), 1) ∧
    genome ind1 = Some l1 ∧ genome ind2 = Some l2 ∧ l1 ≠ l2.
Proof.
  destruct (genome_built x_linked_metadata) as (g & Hg & _); [done|].
  destruct (generated_genomes_are_not_shared zero_chooser () ∅
              {| name := "species"; _genome := g |} 0 0 x_linked_metadata g)
    as (σ1 & ind1 & [] & σ2 & ind2 & s2 & l1 & l2 & buf1 & buf2
        & Hrun1 & _ & _ & _ & Hg1 & Hg2 & Hne & _);
    [compute_done | exact Hg | reflexivity |].
  exists g, σ1, ind1, ind2, l1, l2.
  split_and!; [exact Hg | exact Hrun1 | exact Hg1 | exact Hg2 | exact Hne].
Defined.

(** ** The random choice *)


